(** * Sumburst: the grid-state transitions of [App.tsx] and [utils.ts]

    A shallow embedding of the game logic of the React component [App]
    (state variables, event handlers and effects) and of the tile and
    target generators, followed by the properties of the game-state
    machine.

    Conventions of the embedding.
    - JavaScript numbers that the code only uses as array indices
      ([row], [col]) are [nat]; the other numbers ([value], [score],
      [target], [level], [timeLeft]) are [Z].
    - [Math.random()] returns a double in the half-open interval from 0
      to 1; a draw is the rational value [Q] of that double, and the
      generators are functions of the draws they consume.  The product of
      a draw and the size of the range is a double multiplication: the
      exact product rounded to the nearest double, ties to even
      ([roundDouble]).  The other numbers of the code are integers; they
      are [Z], which is what double arithmetic computes as long as they
      stay below [2^53].  [generateId()] is a draw of a string.
    - A [TypeError] (reading a property of [undefined]) is [None] in the
      [option] monad.
    - [Array.prototype.sort] is stable (ECMAScript 2019), so the sort of a
      column is the stable sort by the comparator of the source.
    - The optional field [isRemoving] of [Block] is never written by the
      code and is left out.  *)

From Stdlib Require Import ZArith QArith Qround Qpower Lia Lqa.
From stdpp Require Import base numbers option list strings sorting relations.

#[local] Open Scope Z_scope.

(** ** types.ts *)

Inductive GameMode := ModeClassic | ModeTime.

Record Block := mkBlock {
  bid : string;
  value : Z;
  row : nat;
  col : nat;
}.

Definition GRID_ROWS : nat := 10.
Definition GRID_COLS : nat := 6.
Definition INITIAL_ROWS : nat := 4.
Definition MAX_VALUE : Z := 9.
Definition TIME_LIMIT : Z := 10.

#[global] Instance GameMode_eq_dec : EqDecision GameMode.
Proof. solve_decision. Defined.

#[global] Instance Block_eq_dec : EqDecision Block.
Proof. solve_decision. Defined.

(** ** utils.ts *)

(** One tile consumes two draws: the string of [generateId()] and the
    number of [Math.random()] that becomes its value. *)
Definition TileDraw : Type := string * Q.
(** The draws of one row, by column index. *)
Definition RowDraw : Type := nat → TileDraw.

(** *** Double multiplication

    A finite double is [m * 2^q] with [|m| < 2^53] and [q >= -1074].  The
    product of two doubles is the exact product rounded to the nearest
    such number, ties going to the even [m].  The products of the code
    stay below 10, far from the overflow threshold, which is left out. *)

Definition pow2 (t : Z) : Q := (2 ^ t)%Q.

(** [floor (log2 x)] of a positive rational: the difference of the bit
    lengths of numerator and denominator, or one less. *)
Definition binade (x : Q) : Z :=
  let t := Z.log2 (Qnum x) - Z.log2 (Zpos (Qden x)) in
  if Qle_bool (pow2 t) x then t else t - 1.

(** The exponent of the unit in the last place: 52 binary places below
    the leading bit, and never below the subnormal spacing [2^-1074]. *)
Definition ulpExponent (x : Q) : Z := Z.max (binade x) (-1022) - 52.

(** The nearest integer, a tie going to the even one. *)
Definition roundHalfEven (s : Q) : Z :=
  let f := Qfloor (s + (1 # 2)) in
  if Qeq_bool (s + (1 # 2)) (inject_Z f) && Z.odd f then f - 1 else f.

Definition roundPositive (x : Q) : Q :=
  let p := pow2 (ulpExponent x) in
  (inject_Z (roundHalfEven (x / p)) * p)%Q.

Definition roundDouble (x : Q) : Q :=
  match (x ?= 0)%Q with
  | Eq => 0%Q
  | Gt => roundPositive x
  | Lt => (- roundPositive (- x))%Q
  end.

(** [a * b] on doubles. *)
Definition doubleMul (a b : Q) : Q := roundDouble (a * b).

(** A rational is a double when rounding leaves it alone. *)
Definition isDouble (u : Q) : Prop := (roundDouble u == u)%Q.

(** [Math.floor(Math.random() * MAX_VALUE) + 1] *)
Definition randomValue (u : Q) : Z :=
  Qfloor (doubleMul u (inject_Z MAX_VALUE)) + 1.

Definition createRow (rnd : RowDraw) (rowIdx : nat) : list Block :=
  (λ colIdx, {| bid := (rnd colIdx).1;
                value := randomValue (rnd colIdx).2;
                row := rowIdx;
                col := colIdx |}) <$> seq 0 GRID_COLS.

(** [generateTarget(mode, level)]; the mode is not used by the source. *)
Definition generateTarget (u : Q) (mode : GameMode) (level : Z) : Z :=
  let base := 10 + Qfloor (doubleMul u (inject_Z 10)) in
  let levelBonus := level / 2 in
  base + levelBonus.

(** What [Math.random()] guarantees of a draw: a double, at least 0 and
    below 1. *)
Definition unitDraw (u : Q) : Prop := isDouble u ∧ (0 <= u)%Q ∧ (u < 1)%Q.

(** ** App.tsx: the state of the component *)

Inductive Phase := Menu | Playing | GameOver.

#[global] Instance Phase_eq_dec : EqDecision Phase.
Proof. solve_decision. Defined.

Abbreviation Grid := (list (list Block)).

Record State := mkState {
  gameState : Phase;
  mode : GameMode;
  grid : Grid;
  selectedIds : list string;
  target : Z;
  score : Z;
  level : Z;
  timeLeft : Z;
  isPaused : bool;
  highScore : Z;
}.

(** The [useState] initial values. *)
Definition initialState : State :=
  {| gameState := Menu; mode := ModeClassic; grid := []; selectedIds := [];
     target := 0; score := 0; level := 1; timeLeft := TIME_LIMIT;
     isPaused := false; highScore := 0 |}.

Definition setGameState (p : Phase) (st : State) : State :=
  mkState p (mode st) (grid st) (selectedIds st) (target st) (score st)
          (level st) (timeLeft st) (isPaused st) (highScore st).
Definition setGrid (g : Grid) (st : State) : State :=
  mkState (gameState st) (mode st) g (selectedIds st) (target st) (score st)
          (level st) (timeLeft st) (isPaused st) (highScore st).
Definition setSelectedIds (s : list string) (st : State) : State :=
  mkState (gameState st) (mode st) (grid st) s (target st) (score st)
          (level st) (timeLeft st) (isPaused st) (highScore st).
Definition setTimeLeft (t : Z) (st : State) : State :=
  mkState (gameState st) (mode st) (grid st) (selectedIds st) (target st)
          (score st) (level st) t (isPaused st) (highScore st).
Definition setIsPaused (p : bool) (st : State) : State :=
  mkState (gameState st) (mode st) (grid st) (selectedIds st) (target st)
          (score st) (level st) (timeLeft st) p (highScore st).
Definition setHighScore (h : Z) (st : State) : State :=
  mkState (gameState st) (mode st) (grid st) (selectedIds st) (target st)
          (score st) (level st) (timeLeft st) (isPaused st) h.

(** ** App.tsx: [startGame] *)

(** The loop [for (r = GRID_ROWS - INITIAL_ROWS; r < GRID_ROWS; r++)
    initialGrid[r] = createRow(r)] over the array of [GRID_ROWS] empty
    rows; [rnd r] are the draws of row [r]. *)
Definition initialGrid (rnd : nat → RowDraw) : Grid :=
  foldl (λ g r, <[r := createRow (rnd r) r]> g)
        (replicate GRID_ROWS [])
        (seq (GRID_ROWS - INITIAL_ROWS) INITIAL_ROWS).

Definition startGame (selectedMode : GameMode) (rnd : nat → RowDraw)
    (ut : Q) (st : State) : State :=
  {| grid := initialGrid rnd;
     mode := selectedMode;
     target := generateTarget ut selectedMode 1;
     score := 0;
     level := 1;
     timeLeft := TIME_LIMIT;
     selectedIds := [];
     gameState := Playing;
     isPaused := false;
     highScore := highScore st |}.

(** ** App.tsx: [gameOver] and the game-over effect *)

Definition gameOver (st : State) : State :=
  setHighScore (if score st >? highScore st then score st else highScore st)
    (setGameState GameOver st).

(** [grid[0]?.some(b => b)]: a block is an object, hence truthy; a grid
    without a row 0 gives [undefined], which is falsy. *)
Definition topRowOccupied (g : Grid) : bool :=
  match g with
  | [] => false
  | row0 :: _ => match row0 with [] => false | _ :: _ => true end
  end.

Definition gameOverEffect (st : State) : State :=
  if decide (gameState st = Playing) then
    if topRowOccupied (grid st) then gameOver st else st
  else st.

(** ** App.tsx: [addRow] *)

(** The updater of [addRow]: [newGrid[r] = newGrid[r + 1].map(b => ({...b,
    row: r}))] for [r] from 0 to [GRID_ROWS - 2], each reading a row that
    has not been written yet, then [newGrid[GRID_ROWS - 1] =
    createRow(GRID_ROWS - 1)].  Reading [newGrid[r + 1]] beyond the end of
    the array gives [undefined], whose [map] is a [TypeError]. *)
Definition withRow (r : nat) (b : Block) : Block :=
  {| bid := bid b; value := value b; row := r; col := col b |}.

Definition shiftRowTo (r : nat) (blocks : list Block) : list Block :=
  withRow r <$> blocks.

Fixpoint shiftRows (newGrid : Grid) (rs : list nat) : option Grid :=
  match rs with
  | [] => Some newGrid
  | r :: rs' =>
      below ← newGrid !! (r + 1)%nat;
      shiftRows (<[r := shiftRowTo r below]> newGrid) rs'
  end.

Definition addRowGrid (rnd : RowDraw) (prevGrid : Grid) : option Grid :=
  newGrid ← shiftRows prevGrid (seq 0 (GRID_ROWS - 1));
  Some (<[(GRID_ROWS - 1)%nat := createRow rnd (GRID_ROWS - 1)]> newGrid).

Definition addRow (rnd : RowDraw) (st : State) : option State :=
  g ← addRowGrid rnd (grid st);
  Some (setTimeLeft TIME_LIMIT (setGrid g st)).

(** ** App.tsx: [toggleBlock] and [currentSum] *)

Definition toggleBlock (block : Block) (st : State) : State :=
  if decide (gameState st ≠ Playing) then st
  else if isPaused st then st
  else
    let prev := selectedIds st in
    setSelectedIds
      (if decide (bid block ∈ prev)
       then filter (λ i, i ≠ bid block) prev
       else prev ++ [bid block])
      st.

(** [grid.flat().forEach(block => { if (selectedIds.includes(block.id))
    sum += block.value })] *)
Definition currentSum (g : Grid) (selected : list string) : Z :=
  foldl (λ sum block,
           if decide (bid block ∈ selected) then sum + value block else sum)
        0 (concat g).

(** ** App.tsx: removal and gravity (the [setGrid] updater of the sum
    effect) *)

(** [xs.forEach((x, i) => ...)] for a body that updates a state and
    may throw. *)
Fixpoint forEachM {A St : Type} (body : St → nat → A → option St)
    (i : nat) (xs : list A) (s : St) : option St :=
  match xs with
  | [] => Some s
  | x :: xs' => s' ← body s i x; forEachM body (S i) xs' s'
  end.

(** [row.filter(block => !selectedIds.includes(block.id))] on every row *)
Definition removeSelected (selected : list string) (g : Grid) : Grid :=
  (λ r, filter (λ block, bid block ∉ selected) r) <$> g.

(** [columns[block.col].push(block)]; [columns[block.col]] is [undefined]
    for a column index outside the array. *)
Definition pushColumn (columns : list (list Block)) (block : Block)
    : option (list (list Block)) :=
  colBlocks ← columns !! col block;
  Some (<[col block := colBlocks ++ [block]]> columns).

Definition splitColumns (blocks : list Block) : option (list (list Block)) :=
  forEachM (λ columns _ block, pushColumn columns block)
           0%nat blocks (replicate GRID_COLS []).

(** [colBlocks.sort((a, b) => b.row - a.row)]: the stable sort by
    descending [row], as an insertion sort that puts an element before
    the first one it does not have to follow. *)
Fixpoint sortInsert (a : Block) (sorted : list Block) : list Block :=
  match sorted with
  | [] => [a]
  | b :: rest =>
      if (row a <? row b)%nat then b :: sortInsert a rest
      else a :: b :: rest
  end.

Definition sortByRowDesc (colBlocks : list Block) : list Block :=
  foldr sortInsert [] colBlocks.

(** A JavaScript array with holes, as [finalGrid[newRow]] is while the
    columns are placed: [arr[i] = x] overwrites inside the array and
    otherwise extends it with holes up to [i]. *)
Definition arraySet {A : Type} (arr : list (option A)) (i : nat) (x : A)
    : list (option A) :=
  if (i <? length arr)%nat then <[i := Some x]> arr
  else arr ++ replicate (i - length arr) None ++ [Some x].

(** [{...block, row: newRow, col: colIdx}] *)
Definition moveTo (newRow colIdx : nat) (block : Block) : Block :=
  {| bid := bid block; value := value block; row := newRow; col := colIdx |}.

(** [finalGrid[newRow][colIdx] = {...block, row: newRow, col: colIdx}]
    with [newRow = GRID_ROWS - 1 - i]; for [i >= GRID_ROWS] the row index
    is negative and [finalGrid[newRow]] is [undefined]. *)
Definition placeBlock (colIdx : nat) (finalGrid : list (list (option Block)))
    (i : nat) (block : Block) : option (list (list (option Block))) :=
  if (i <? GRID_ROWS)%nat then
    let newRow := (GRID_ROWS - 1 - i)%nat in
    cells ← finalGrid !! newRow;
    Some (<[newRow := arraySet cells colIdx (moveTo newRow colIdx block)]>
            finalGrid)
  else None.

Definition placeColumn (finalGrid : list (list (option Block)))
    (colIdx : nat) (colBlocks : list Block)
    : option (list (list (option Block))) :=
  forEachM (placeBlock colIdx) 0%nat (sortByRowDesc colBlocks) finalGrid.

(** [row.filter(b => b)]: the holes and [undefined] entries go. *)
Definition compact (cells : list (option Block)) : list Block :=
  omap (λ c, c) cells.

Definition placeColumns (columns : list (list Block))
    : option (list (list (option Block))) :=
  forEachM placeColumn 0%nat columns (replicate GRID_ROWS []).

Definition gravity (selected : list string) (prevGrid : Grid) : option Grid :=
  let newGrid := removeSelected selected prevGrid in
  columns ← splitColumns (concat newGrid);
  finalGrid ← placeColumns columns;
  Some (compact <$> (finalGrid : list (list (option Block)))).

(** ** App.tsx: the sum effect ([evaluateSelection] of the specification)

    The effect reads [currentSum], [target], [selectedIds], [mode],
    [level] and [score] of the render it belongs to, and queues its state
    updates; the two [setGrid] updaters (gravity, then [addRow] in classic
    mode) run in the order they were queued.  [ut] is the draw of the new
    target, [rnd] the draws of the row that classic mode adds. *)
Definition evaluateSelection (ut : Q) (rnd : RowDraw) (st : State)
    : option State :=
  let sum := currentSum (grid st) (selectedIds st) in
  if decide (sum = target st ∧ target st > 0) then
    let clearedCount := Z.of_nat (length (selectedIds st)) in
    g1 ← gravity (selectedIds st) (grid st);
    g2 ← match mode st with
         | ModeClassic => addRowGrid rnd g1
         | ModeTime => Some g1
         end;
    Some {| gameState := gameState st;
            mode := mode st;
            grid := g2;
            selectedIds := [];
            target := generateTarget ut (mode st) (level st);
            score := score st + target st * clearedCount;
            level := if decide (score st > level st * 500)
                     then level st + 1 else level st;
            timeLeft := TIME_LIMIT;
            isPaused := isPaused st;
            highScore := highScore st |}
  else if decide (sum > target st) then Some (setSelectedIds [] st)
  else Some st.

(** ** App.tsx: the timer of time mode

    The interval exists while the game is playing in time mode and is
    not paused; [timerTick] is one firing of its callback. *)
Definition timerRunning (st : State) : bool :=
  bool_decide (gameState st = Playing) && bool_decide (mode st = ModeTime)
  && negb (isPaused st).

Definition timerTick (rnd : RowDraw) (st : State) : option State :=
  if timerRunning st then
    if decide (timeLeft st <= 1) then addRow rnd st
    else Some (setTimeLeft (timeLeft st - 1) st)
  else Some st.

(** Successive firings of the callback, one draw of a row for each. *)
Fixpoint timerTicks (rnds : list RowDraw) (st : State) : option State :=
  match rnds with
  | [] => Some st
  | rnd :: rest => st' ← timerTick rnd st; timerTicks rest st'
  end.

(** The remaining handlers of the view. *)
Definition togglePause (st : State) : State :=
  setIsPaused (negb (isPaused st)) st.
Definition resume (st : State) : State := setIsPaused false st.
Definition returnToMenu (st : State) : State := setGameState Menu st.

(** ** Examples *)

Definition tile (i : string) (v : Z) (r c : nat) : Block := mkBlock i v r c.

Definition exampleGrid : Grid :=
  [ []; []; []; []; []; []; []; [];
    [tile "a" 3 8 0; tile "b" 5 8 1; tile "c" 2 8 2;
     tile "d" 4 8 3; tile "e" 6 8 4; tile "f" 1 8 5];
    [tile "g" 7 9 0; tile "h" 8 9 1; tile "i" 9 9 2;
     tile "j" 1 9 3; tile "k" 2 9 4; tile "l" 3 9 5] ].

Definition exampleDraw : RowDraw :=
  λ c, (nth c ["n0"; "n1"; "n2"; "n3"; "n4"; "n5"] "n", (1 # 2)%Q).

Definition exampleStateAt (m : GameMode) (sel : list string) (t sc : Z)
    : State :=
  {| gameState := Playing; mode := m; grid := exampleGrid;
     selectedIds := sel; target := t; score := sc; level := 1;
     timeLeft := TIME_LIMIT; isPaused := false; highScore := 0 |}.

Definition exampleState (m : GameMode) (sel : list string) (t : Z) : State :=
  exampleStateAt m sel t 0.

(** A playing game whose first column is ten tiles high, so that the
    rows 0 and 1 both hold a tile. *)
Definition exampleFullGrid : Grid :=
  [ [tile "t0" 4 0 0]; [tile "t1" 6 1 0]; [tile "t2" 5 2 0];
    [tile "t3" 2 3 0]; [tile "t4" 9 4 0]; [tile "t5" 1 5 0];
    [tile "t6" 3 6 0]; [tile "t7" 8 7 0];
    [tile "a" 3 8 0; tile "b" 5 8 1; tile "c" 2 8 2;
     tile "d" 4 8 3; tile "e" 6 8 4; tile "f" 1 8 5];
    [tile "g" 7 9 0; tile "h" 8 9 1; tile "i" 9 9 2;
     tile "j" 1 9 3; tile "k" 2 9 4; tile "l" 3 9 5] ].

Definition exampleFullState : State :=
  {| gameState := Playing; mode := ModeTime; grid := exampleFullGrid;
     selectedIds := []; target := 12; score := 0; level := 1;
     timeLeft := 1; isPaused := false; highScore := 0 |}.

(** * Notions of the properties *)

(** ** Columns of blocks, their order and the cells of a grid *)

Definition inColumn (c : nat) (blocks : list Block) : list Block :=
  filter (λ b, col b = c) blocks.

(** [byRowDesc a b]: [a] may stand before [b] in a sorted column. *)
Definition byRowDesc (a b : Block) : Prop := (row b ≤ row a)%nat.

(** The content of cell [(r, c)] of the grid under construction; a hole,
    a row that is too short and a missing row all read as [None]. *)
Definition cellAt (fg : list (list (option Block))) (r c : nat)
    : option Block :=
  fg !! r ≫= λ cells, mjoin (cells !! c).

Definition widthAtMost (n : nat) (fg : list (list (option Block))) : Prop :=
  Forall (λ cells, (length cells ≤ n)%nat) fg.

(** ** The closed form of removal and gravity *)

(** The blocks that stay, and column [c] of them in placement order. *)
Definition keptBlocks (selected : list string) (g : Grid) : list Block :=
  concat (removeSelected selected g).

Definition keptColumn (selected : list string) (g : Grid) (c : nat)
    : list Block :=
  sortByRowDesc (inColumn c (keptBlocks selected g)).

Definition settledCell (selected : list string) (g : Grid) (r c : nat)
    : option Block :=
  moveTo r c <$> keptColumn selected g c !! (GRID_ROWS - 1 - r)%nat.

Definition settledGrid (selected : list string) (g : Grid) : Grid :=
  (λ r, omap (settledCell selected g r) (seq 0 GRID_COLS)) <$> seq 0 GRID_ROWS.

(** What [gravity] needs not to throw: every block that stays names a
    column of the grid, and no column holds more blocks than the grid has
    rows. *)
Definition fitsGrid (blocks : list Block) : Prop :=
  Forall (λ b, (col b < GRID_COLS)%nat) blocks ∧
  ∀ c, (length (inColumn c blocks) ≤ GRID_ROWS)%nat.

(** ** Well-formed grids and the invariant of the data model *)

Definition validValue (v : Z) : Prop := 1 ≤ v ≤ MAX_VALUE.

(** A block of row [r] of the grid: its [row] field is the index of the
    row that holds it, its column is a column of the grid and its value
    is a tile value. *)
Definition blockOK (r : nat) (b : Block) : Prop :=
  row b = r ∧ (col b < GRID_COLS)%nat ∧ validValue (value b).

Definition rowOK (r : nat) (blocks : list Block) : Prop :=
  Forall (blockOK r) blocks ∧ NoDup (col <$> blocks).

(** The grid has [GRID_ROWS] rows, and row [r] holds blocks of row [r],
    at most one per column. *)
Definition gridOK (g : Grid) : Prop := Forall2 rowOK (seq 0 GRID_ROWS) g.

#[global] Instance validValue_dec (v : Z) : Decision (validValue v).
Proof. unfold validValue. apply _. Defined.
#[global] Instance blockOK_dec (r : nat) (b : Block) : Decision (blockOK r b).
Proof. unfold blockOK. apply _. Defined.
#[global] Instance rowOK_dec (r : nat) (blocks : list Block)
  : Decision (rowOK r blocks).
Proof. unfold rowOK. apply _. Defined.
#[global] Instance gridOK_dec (g : Grid) : Decision (gridOK g).
Proof. unfold gridOK. apply _. Defined.

(** The invariant of the data model: no two tiles share a position, and
    every value is in range. *)
Definition positions (g : Grid) : list (nat * nat) :=
  (λ b, (row b, col b)) <$> concat g.

Definition tilesOK (g : Grid) : Prop :=
  NoDup (positions g) ∧ Forall (λ b, validValue (value b)) (concat g).

Definition ids (g : Grid) : list string := bid <$> concat g.

(** Every tile stands on the bottom row or on another tile. *)
Definition settled (g : Grid) : Prop :=
  ∀ b, b ∈ concat g → (row b < GRID_ROWS - 1)%nat →
       ∃ b', b' ∈ concat g ∧ col b' = col b ∧ row b' = S (row b).

(** ** Draws *)

(** The draws of a row are draws of [Math.random()]. *)
Definition unitRow (rnd : RowDraw) : Prop :=
  Forall (λ c, unitDraw (rnd c).2) (seq 0 GRID_COLS).

(** The draws of the rows of a game start. *)
Definition unitStart (start : nat → RowDraw) : Prop :=
  Forall (λ r, unitRow (start r)) (seq (GRID_ROWS - INITIAL_ROWS) INITIAL_ROWS).

#[global] Instance unitDraw_dec (u : Q) : Decision (unitDraw u).
Proof. unfold unitDraw, isDouble, Qeq, Qle, Qlt. apply _. Defined.
#[global] Instance unitRow_dec (rnd : RowDraw) : Decision (unitRow rnd).
Proof. unfold unitRow. apply _. Defined.
#[global] Instance unitStart_dec (start : nat → RowDraw)
  : Decision (unitStart start).
Proof. unfold unitStart. apply _. Defined.

(** The ids that [generateId()] gives to the tiles of a new row. *)
(** [b'] is the tile [b] on row [r]: the same id, value and column, and
    the row field [r]. *)
Definition movedToRow (r : nat) (b b' : Block) : Prop :=
  bid b' = bid b ∧ value b' = value b ∧ col b' = col b ∧ row b' = r.

Definition freshIds (rnd : RowDraw) : list string :=
  (λ c, (rnd c).1) <$> seq 0 GRID_COLS.

(** ** Matches *)

(** The selection matches the target. *)
Definition matched (st : State) : Prop :=
  currentSum (grid st) (selectedIds st) = target st ∧ target st > 0.

#[global] Instance matched_dec (st : State) : Decision (matched st).
Proof. unfold matched. apply _. Defined.

(** The grid that a match leaves: the settled grid, raised by one row in
    classic mode. *)
Definition gridAfterMatch (rnd : RowDraw) (st : State) : option Grid :=
  match mode st with
  | ModeClassic => addRowGrid rnd (settledGrid (selectedIds st) (grid st))
  | ModeTime => Some (settledGrid (selectedIds st) (grid st))
  end.

(** ** The state machine

    The events of the view and of the timer, and the two effects.  The
    start buttons exist on the menu screen and, for the current mode, in
    the game-over dialog; the tiles, the pause button and the home button
    exist on the game screen.  React runs the effects of a render before
    it handles the next event, so a click on a tile and an interval tick
    meet a state on which the game-over effect has run. *)
Inductive step : State → State → Prop :=
  | step_start (m : GameMode) (start : nat → RowDraw) (ut : Q) (st : State) :
      gameState st = Menu ∨ (gameState st = GameOver ∧ m = mode st) →
      unitStart start → unitDraw ut →
      step st (startGame m start ut st)
  | step_toggle (b : Block) (st : State) :
      gameState st ≠ Menu → gameOverEffect st = st → b ∈ concat (grid st) →
      step st (toggleBlock b st)
  | step_pause (st : State) :
      gameState st ≠ Menu → step st (togglePause st)
  | step_resume (st : State) :
      gameState st ≠ Menu → isPaused st = true → step st (resume st)
  | step_menu (st : State) :
      gameState st ≠ Menu → step st (returnToMenu st)
  | step_tick (rnd : RowDraw) (st st' : State) :
      gameOverEffect st = st → unitRow rnd →
      timerTick rnd st = Some st' → step st st'
  | step_gameOverEffect (st : State) :
      step st (gameOverEffect st)
  | step_evaluate (ut : Q) (rnd : RowDraw) (st st' : State) :
      unitDraw ut → unitRow rnd →
      evaluateSelection ut rnd st = Some st' → step st st'.

Definition reachable (st : State) : Prop := rtc step initialState st.

Definition selectionInGrid (st : State) : Prop :=
  ∀ i, i ∈ selectedIds st → i ∈ ids (grid st).

(** A match in classic mode finds the top row free. *)
Definition matchBelowTop (st : State) : Prop :=
  matched st → mode st = ModeClassic → topRowOccupied (grid st) = false.

(** Before the first game the grid is empty and the menu is shown;
    afterwards the grid is well formed. *)
Definition gridReady (st : State) : Prop :=
  (grid st = [] ∧ gameState st = Menu) ∨ gridOK (grid st).

Definition stateOK (st : State) : Prop :=
  selectionInGrid st ∧ NoDup (selectedIds st) ∧ gridReady st ∧
  1 ≤ level st ∧ matchBelowTop st.

(** A game started from the menu, and its bottom-left tile selected. *)
Definition exampleStart : nat → RowDraw :=
  λ r c, (String.append (nth (r - 6) ["p"; "q"; "r"; "s"] "x")
                        (nth c ["0"; "1"; "2"; "3"; "4"; "5"] "x"),
          (1 # 2)%Q).

Definition exampleStarted : State :=
  startGame ModeClassic exampleStart (1 # 2) initialState.

Definition exampleToggled : State :=
  toggleBlock (mkBlock "s0" 5 9 0) exampleStarted.

(** ** Notions of the further properties *)

(** The counters of the round are in range. *)
Definition countersOK (st : State) : Prop :=
  1 ≤ timeLeft st ≤ TIME_LIMIT ∧ 0 ≤ score st ∧ 1 ≤ level st ∧
  0 ≤ highScore st.

(** What a tile is apart from its row: its id, its value and its
    column. *)
Definition tileData (b : Block) : string * Z * nat :=
  (bid b, value b, col b).

(** The sum of the values of the tiles whose id is selected, and of the
    tiles that carry one id. *)
Definition selectedTotal (selected : list string)
    (ds : list (string * Z * nat)) : Z :=
  foldr (λ d acc, (if decide (d.1.1 ∈ selected) then d.1.2 else 0) + acc) 0 ds.

Definition idTotal (i : string) (ds : list (string * Z * nat)) : Z :=
  foldr (λ d acc, (if decide (d.1.1 = i) then d.1.2 else 0) + acc) 0 ds.

(** Successive row insertions, one draw of a row for each. *)
Fixpoint addRows (rnds : list RowDraw) (g : Grid) : option Grid :=
  match rnds with
  | [] => Some g
  | rnd :: rest => g' ← addRowGrid rnd g; addRows rest g'
  end.

(** ** Proof automation *)

(** Case analysis on the first decision in the goal. *)
Ltac case_dec :=
  match goal with |- context [decide ?P] => destruct (decide P) end.

(** * Properties *)

(** ** Loops *)

Lemma forEachM_app {A St : Type} (body : St → nat → A → option St)
    (i : nat) (xs ys : list A) (s : St) :
  forEachM body i (xs ++ ys) s =
  forEachM body i xs s ≫= forEachM body (i + length xs)%nat ys.
Proof.
  revert i s. induction xs as [|x xs IH]; intros i s; simpl.
  - by rewrite Nat.add_0_r.
  - destruct (body s i x) as [s'|]; simpl; [|done].
    rewrite IH. by replace (S i + length xs)%nat with (i + S (length xs))%nat by lia.
Qed.

Lemma bind_Some_l {A B : Type} (x : A) (f : A → option B) :
  Some x ≫= f = f x.
Proof. done. Qed.

Lemma forEachM_cons {A St : Type} (body : St → nat → A → option St)
    (i : nat) (x : A) (xs : list A) (s : St) :
  forEachM body i (x :: xs) s = body s i x ≫= forEachM body (S i) xs.
Proof. done. Qed.

(** ** Splitting the blocks into columns *)

Lemma pushColumn_seq (f : nat → list Block) (n : nat) (b : Block) :
  (col b < n)%nat →
  pushColumn (f <$> seq 0 n) b =
  Some ((λ c, f c ++ inColumn c [b]) <$> seq 0 n).
Proof.
  intros Hb. unfold pushColumn.
  rewrite list_lookup_fmap, lookup_seq_lt by done. simpl. f_equal.
  apply list_eq. intros j.
  destruct (decide (j < n)%nat) as [Hj|Hj].
  - destruct (decide (j = col b)) as [->|Hne].
    + rewrite list_lookup_insert_eq by (by rewrite length_fmap, length_seq).
      rewrite list_lookup_fmap, lookup_seq_lt by done. simpl.
      unfold inColumn. rewrite filter_cons_True by done. done.
    + rewrite list_lookup_insert_ne by done.
      rewrite !list_lookup_fmap, lookup_seq_lt by done. simpl.
      unfold inColumn. rewrite filter_cons_False by done.
      by rewrite filter_nil, app_nil_r.
  - rewrite !lookup_ge_None_2; [done| |].
    + rewrite length_fmap, length_seq. lia.
    + rewrite length_insert, length_fmap, length_seq. lia.
Qed.

Lemma splitColumns_from (f : nat → list Block) (n i : nat)
    (blocks : list Block) :
  Forall (λ b, (col b < n)%nat) blocks →
  forEachM (λ columns (_ : nat) block, pushColumn columns block)
           i blocks (f <$> seq 0 n) =
  Some ((λ c, f c ++ inColumn c blocks) <$> seq 0 n).
Proof.
  revert f i. induction blocks as [|b blocks IH]; intros f i Hall; simpl.
  - f_equal. apply list_fmap_ext. intros ? c _. unfold inColumn.
    by rewrite filter_nil, app_nil_r.
  - inversion Hall as [|? ? Hb Hrest]; subst.
    rewrite pushColumn_seq by done. simpl.
    rewrite IH by done. f_equal. apply list_fmap_ext. intros ? c _.
    rewrite <- app_assoc. f_equal. unfold inColumn.
    by rewrite <- filter_app.
Qed.

Lemma splitColumns_spec (blocks : list Block) :
  Forall (λ b, (col b < GRID_COLS)%nat) blocks →
  splitColumns blocks = Some ((λ c, inColumn c blocks) <$> seq 0 GRID_COLS).
Proof.
  intros Hall. unfold splitColumns.
  change (replicate GRID_COLS []) with ((λ _ : nat, @nil Block) <$> seq 0 GRID_COLS).
  by rewrite splitColumns_from.
Qed.

(** ** The column sort *)

Lemma sortInsert_perm (a : Block) (l : list Block) : sortInsert a l ≡ₚ a :: l.
Proof.
  induction l as [|b l IH]; simpl; [done|].
  destruct (row a <? row b)%nat; [|done].
  rewrite IH. apply Permutation_swap.
Qed.

Lemma sortByRowDesc_perm (l : list Block) : sortByRowDesc l ≡ₚ l.
Proof.
  induction l as [|a l IH]; simpl; [done|].
  unfold sortByRowDesc in *. simpl. by rewrite sortInsert_perm, IH.
Qed.

Lemma sortByRowDesc_length (l : list Block) :
  length (sortByRowDesc l) = length l.
Proof. by rewrite sortByRowDesc_perm. Qed.

Lemma sortByRowDesc_elem_of (b : Block) (l : list Block) :
  b ∈ sortByRowDesc l ↔ b ∈ l.
Proof. by rewrite sortByRowDesc_perm. Qed.

Lemma sortInsert_sorted (a : Block) (l : list Block) :
  StronglySorted byRowDesc l → StronglySorted byRowDesc (sortInsert a l).
Proof.
  induction l as [|b l IH]; simpl; intros Hs.
  - repeat constructor.
  - apply StronglySorted_inv in Hs as [Hl Hb].
    destruct (row a <? row b)%nat eqn:Hab.
    + apply Nat.ltb_lt in Hab. constructor; [by apply IH|].
      rewrite sortInsert_perm. constructor; [unfold byRowDesc; lia|done].
    + apply Nat.ltb_ge in Hab. constructor; [by constructor|].
      constructor; [done|].
      eapply Forall_impl; [exact Hb|]. unfold byRowDesc. intros; simpl in *. lia.
Qed.

Lemma sortByRowDesc_sorted (l : list Block) :
  StronglySorted byRowDesc (sortByRowDesc l).
Proof.
  induction l as [|a l IH]; [constructor|].
  by apply sortInsert_sorted.
Qed.

Lemma sorted_lookup_le (s : list Block) (i j : nat) (x y : Block) :
  StronglySorted byRowDesc s →
  s !! i = Some x → s !! j = Some y → (i < j)%nat → (row y ≤ row x)%nat.
Proof.
  intros Hs. revert i j. induction Hs as [|a s Hs IH Ha]; intros i j Hi Hj Hij.
  - by rewrite lookup_nil in Hi.
  - destruct j as [|j]; [lia|]. simpl in Hj. destruct i as [|i]; simpl in Hi.
    + injection Hi as ->. rewrite Forall_forall in Ha.
      apply Ha. eapply list_elem_of_lookup_2, Hj.
    + eapply IH; [exact Hi|exact Hj|lia].
Qed.

(** The sort is stable: blocks with the same [row] keep their order. *)
Lemma sortInsert_same_row (k : nat) (a : Block) (l : list Block) :
  StronglySorted byRowDesc l →
  filter (λ b, row b = k) (sortInsert a l) = filter (λ b, row b = k) (a :: l).
Proof.
  induction l as [|b l IH]; simpl; intros Hs; [done|].
  apply StronglySorted_inv in Hs as [Hl Hb].
  destruct (row a <? row b)%nat eqn:Hab; [|done].
  apply Nat.ltb_lt in Hab.
  rewrite (filter_cons _ b), IH by done.
  rewrite !(filter_cons _ a), (filter_cons _ b).
  repeat case_decide; try done; lia.
Qed.

Lemma sortByRowDesc_stable (k : nat) (l : list Block) :
  filter (λ b, row b = k) (sortByRowDesc l) = filter (λ b, row b = k) l.
Proof.
  induction l as [|a l IH]; [done|].
  change (sortByRowDesc (a :: l)) with (sortInsert a (sortByRowDesc l)).
  rewrite sortInsert_same_row by apply sortByRowDesc_sorted.
  by rewrite !(filter_cons _ a), IH.
Qed.

(** ** Placing the sorted columns *)

Lemma arraySet_lookup {A : Type} (cells : list (option A)) (i j : nat) (x : A) :
  mjoin (arraySet cells i x !! j) =
  if decide (j = i) then Some x else mjoin (cells !! j).
Proof.
  unfold arraySet. destruct (i <? length cells)%nat eqn:Hi.
  - apply Nat.ltb_lt in Hi. case_decide as Hj.
    + subst. by rewrite list_lookup_insert_eq.
    + by rewrite list_lookup_insert_ne.
  - apply Nat.ltb_ge in Hi. case_decide as Hj.
    + subst. rewrite lookup_app_r by done.
      rewrite lookup_app_r by (rewrite length_replicate; lia).
      by rewrite length_replicate, Nat.sub_diag.
    + destruct (decide (j < length cells)%nat).
      * by rewrite lookup_app_l.
      * rewrite (lookup_ge_None_2 cells) by lia. rewrite lookup_app_r by lia.
        destruct (decide (j < i)%nat).
        -- rewrite lookup_app_l by (rewrite length_replicate; lia).
           by rewrite lookup_replicate_2 by lia.
        -- rewrite lookup_ge_None_2; [done|].
           rewrite length_app, length_replicate. simpl. lia.
Qed.

Lemma arraySet_length {A : Type} (cells : list (option A)) (i n : nat) (x : A) :
  (length cells ≤ n)%nat → (i < n)%nat → (length (arraySet cells i x) ≤ n)%nat.
Proof.
  intros Hl Hi. unfold arraySet. destruct (i <? length cells)%nat eqn:E.
  - by rewrite length_insert.
  - apply Nat.ltb_ge in E.
    rewrite !length_app, length_replicate. simpl. lia.
Qed.

Lemma placeBlock_spec (c i : nat) (b : Block) (fg : list (list (option Block))) :
  length fg = GRID_ROWS → (i < GRID_ROWS)%nat →
  ∃ fg', placeBlock c fg i b = Some fg' ∧ length fg' = GRID_ROWS ∧
    (∀ n, (c < n)%nat → widthAtMost n fg → widthAtMost n fg') ∧
    ∀ r c', cellAt fg' r c' =
            if decide (r = (GRID_ROWS - 1 - i)%nat ∧ c' = c)
            then Some (moveTo r c b) else cellAt fg r c'.
Proof.
  intros Hlen Hi. unfold placeBlock.
  apply Nat.ltb_lt in Hi as Hi'. rewrite Hi'. unfold GRID_ROWS in *.
  destruct (lookup_lt_is_Some_2 fg (10 - 1 - i)%nat) as [cells Hc];
    [lia|].
  cbv zeta. rewrite Hc. simpl. eexists. split; [done|].
  split; [by rewrite length_insert|]. split.
  - intros n Hn Hw. apply Forall_insert; [done|].
    apply arraySet_length; [|done].
    by eapply (Forall_lookup_1 _ _ _ _ Hw).
  - intros r c'. unfold cellAt.
    destruct (decide (r = (10 - 1 - i)%nat)) as [->|Hr].
    + rewrite list_lookup_insert_eq by lia. rewrite Hc. simpl.
      rewrite arraySet_lookup.
      destruct (decide (c' = c)) as [->|Hne].
      * by rewrite decide_True.
      * by rewrite decide_False by (intros [_ ?]; contradiction).
    + rewrite list_lookup_insert_ne by done.
      by rewrite decide_False by (intros [? _]; contradiction).
Qed.

Lemma placeColumn_from (c : nat) (s : list Block) :
  ∀ (i : nat) (fg : list (list (option Block))),
  length fg = GRID_ROWS → (i + length s ≤ GRID_ROWS)%nat →
  ∃ fg', forEachM (placeBlock c) i s fg = Some fg' ∧ length fg' = GRID_ROWS ∧
    (∀ n, (c < n)%nat → widthAtMost n fg → widthAtMost n fg') ∧
    ∀ r c', cellAt fg' r c' =
            match (if decide (c' = c ∧ (r < GRID_ROWS)%nat
                              ∧ (i ≤ GRID_ROWS - 1 - r)%nat)
                   then moveTo r c <$> s !! (GRID_ROWS - 1 - r - i)%nat
                   else None) with
            | Some b => Some b
            | None => cellAt fg r c'
            end.
Proof.
  induction s as [|b s IH]; intros i fg Hlen Hi; simpl in *.
  - exists fg. split; [done|]. split; [done|]. split; [done|].
    intros r c'. by destruct (decide _).
  - destruct (placeBlock_spec c i b fg) as (fg1 & -> & Hlen1 & Hw1 & Hcell1);
      [done|lia|]. simpl.
    destruct (IH (S i) fg1) as (fg' & -> & Hlen' & Hw' & Hcell');
      [done|lia|].
    exists fg'. split; [done|]. split; [done|]. split; [by auto|].
    intros r c'. rewrite Hcell', Hcell1. unfold GRID_ROWS in *.
    destruct (decide (9 - r = i)%nat) as [Heq|Hne].
    + replace (9 - r - i)%nat with 0%nat by lia.
      repeat case_dec; simpl; try done; lia.
    + destruct (decide (i ≤ 9 - r)%nat) as [Hle|Hgt].
      * replace (9 - r - i)%nat with (S (9 - r - S i)) by lia.
        simpl. destruct (s !! _); repeat case_dec; simpl; try done; lia.
      * repeat case_dec; simpl; try done; lia.
Qed.

Lemma placeColumns_from (columns : list (list Block)) :
  ∀ (k : nat) (fg : list (list (option Block))),
  length fg = GRID_ROWS →
  Forall (λ colBlocks, (length colBlocks ≤ GRID_ROWS)%nat) columns →
  ∃ fg', forEachM placeColumn k columns fg = Some fg' ∧
    length fg' = GRID_ROWS ∧
    (∀ n, (k + length columns ≤ n)%nat → widthAtMost n fg → widthAtMost n fg') ∧
    ∀ r c, cellAt fg' r c =
           match (if decide ((k ≤ c)%nat ∧ (r < GRID_ROWS)%nat)
                  then columns !! (c - k)%nat ≫= λ colBlocks,
                       moveTo r c <$>
                         sortByRowDesc colBlocks !! (GRID_ROWS - 1 - r)%nat
                  else None) with
           | Some b => Some b
           | None => cellAt fg r c
           end.
Proof.
  induction columns as [|colBlocks columns IH]; intros k fg Hlen Hcols.
  - exists fg. split; [done|]. split; [done|]. split; [done|].
    intros r c. by destruct (decide _).
  - apply Forall_cons in Hcols as [Hcol Hcols].
    rewrite forEachM_cons.
    destruct (placeColumn_from k (sortByRowDesc colBlocks) 0 fg)
      as (fg1 & Hfg1 & Hlen1 & Hw1 & Hcell1);
      [done|by rewrite sortByRowDesc_length|].
    fold (placeColumn fg k colBlocks) in Hfg1. rewrite Hfg1. simpl.
    destruct (IH (S k) fg1) as (fg' & -> & Hlen' & Hw' & Hcell'); [done..|].
    exists fg'. split; [done|]. split; [done|]. split.
    { intros n Hn Hw. simpl in Hn. apply Hw'; [lia|]. apply Hw1; [lia|done]. }
    intros r c. rewrite Hcell', Hcell1. unfold GRID_ROWS in *.
    destruct (decide (c = k)) as [->|Hne].
    + replace (k - k)%nat with 0%nat by lia. simpl.
      rewrite Nat.sub_0_r.
      repeat case_dec; simpl; try done; try lia.
      all: rewrite lookup_ge_None_2;
        [done|rewrite sortByRowDesc_length; lia].
    + destruct (decide (k ≤ c)%nat) as [Hle|Hgt].
      * replace (c - k)%nat with (S (c - S k)) by lia. simpl.
        destruct (columns !! _ ≫= _); repeat case_dec; simpl; try done; lia.
      * repeat case_dec; simpl; try done; lia.
Qed.

Lemma omap_all_None {A B : Type} (f : A → option B) (l : list A) :
  (∀ x, f x = None) → omap f l = [].
Proof. intros Hf. induction l as [|x l IH]; [done|]. simpl. by rewrite Hf. Qed.

Lemma compact_cells (cells : list (option Block)) (n : nat) :
  (length cells ≤ n)%nat →
  compact cells = omap (λ c, mjoin (cells !! c)) (seq 0 n).
Proof.
  revert n. induction cells as [|x cells IH]; intros n Hn.
  - symmetry. by apply omap_all_None.
  - destruct n as [|n]; [simpl in Hn; lia|].
    assert (omap (λ c, mjoin ((x :: cells) !! c)) (seq 1 n)
            = compact cells) as Htail.
    { rewrite <- fmap_S_seq, (IH n) by (simpl in Hn; lia).
      apply list_omap_ext.
      apply Forall2_fmap_l, Forall_Forall2_diag, Forall_forall. done. }
    change (seq 0 (S n)) with (0%nat :: seq 1 n).
    unfold compact in *. destruct x; csimpl; by rewrite Htail.
Qed.

(** ** Removal and gravity compute the settled grid *)

Lemma gravity_spec (selected : list string) (g : Grid) :
  fitsGrid (keptBlocks selected g) →
  gravity selected g = Some (settledGrid selected g).
Proof.
  intros [Hcols Hrows]. unfold gravity. cbv zeta.
  fold (keptBlocks selected g).
  rewrite splitColumns_spec, bind_Some_l by done. unfold placeColumns.
  destruct (placeColumns_from
              ((λ c, inColumn c (keptBlocks selected g)) <$> seq 0 GRID_COLS)
              0 (replicate GRID_ROWS []))
    as (fg & -> & Hlen & Hw & Hcell).
  { by rewrite length_replicate. }
  { apply Forall_fmap, Forall_forall. intros c _. apply Hrows. }
  rewrite bind_Some_l. f_equal. unfold settledGrid. apply list_eq. intros r.
  rewrite !list_lookup_fmap.
  destruct (decide (r < GRID_ROWS)%nat) as [Hr|Hr].
  - rewrite lookup_seq_lt by done.
    destruct (lookup_lt_is_Some_2 fg r) as [cells Hcells]; [lia|].
    rewrite Hcells.
    change (Some (compact cells) =
            Some (omap (settledCell selected g r) (seq 0 GRID_COLS))).
    f_equal.
    assert (length cells ≤ GRID_COLS)%nat as Hwidth.
    { specialize (Hw GRID_COLS). rewrite length_fmap, length_seq in Hw.
      eapply (Forall_lookup_1 _ _ _ _ (Hw _ _) Hcells). }
    rewrite (compact_cells _ GRID_COLS) by done.
    apply list_omap_ext, Forall_Forall2_diag, Forall_forall.
    intros c Hc%elem_of_seq.
    specialize (Hcell r c). unfold cellAt in Hcell at 1.
    rewrite Hcells, bind_Some_l in Hcell. rewrite Hcell.
    rewrite decide_True by (split; [lia|done]).
    rewrite Nat.sub_0_r, list_lookup_fmap, lookup_seq_lt by lia.
    rewrite Nat.add_0_l. unfold settledCell, keptColumn.
    change (_ <$> Some c) with (Some (inColumn c (keptBlocks selected g))).
    rewrite bind_Some_l.
    destruct (sortByRowDesc _ !! _) as [b|]; [reflexivity|].
    unfold cellAt. rewrite lookup_replicate_2 by done. reflexivity.
  - rewrite lookup_seq_ge by lia. rewrite lookup_ge_None_2 by lia. done.
  Unshelve.
  + lia.
  + apply Forall_replicate. simpl. lia.
Qed.

(** ** The row shift of [addRow] *)

Lemma shiftRows_seq (n : nat) :
  ∀ (k : nat) (g : Grid),
  (k + n < length g)%nat →
  ∃ g', shiftRows g (seq k n) = Some g' ∧ length g' = length g ∧
    ∀ r, g' !! r = if decide (k ≤ r < k + n)%nat
                   then shiftRowTo r <$> g !! S r else g !! r.
Proof.
  induction n as [|n IH]; intros k g Hk.
  - exists g. split; [done|]. split; [done|].
    intros r. rewrite decide_False by lia. done.
  - change (seq k (S n)) with (k :: seq (S k) n). simpl.
    destruct (lookup_lt_is_Some_2 g (k + 1)%nat) as [below Hbelow]; [lia|].
    rewrite Hbelow, bind_Some_l.
    destruct (IH (S k) (<[k := shiftRowTo k below]> g))
      as (g' & -> & Hlen & Hrows); [rewrite length_insert; lia|].
    exists g'. split; [done|]. split; [by rewrite Hlen, length_insert|].
    intros r. rewrite Hrows.
    destruct (decide (r = k)) as [->|Hne].
    + rewrite decide_False by lia. rewrite decide_True by lia.
      rewrite list_lookup_insert_eq by lia.
      replace (S k) with (k + 1)%nat by lia. by rewrite Hbelow.
    + destruct (decide (S k ≤ r < S k + n)%nat).
      * rewrite decide_True by lia. by rewrite list_lookup_insert_ne by lia.
      * rewrite decide_False by lia. by rewrite list_lookup_insert_ne by lia.
Qed.

Lemma addRowGrid_spec (rnd : RowDraw) (g : Grid) :
  (GRID_ROWS ≤ length g)%nat →
  ∃ g', addRowGrid rnd g = Some g' ∧ length g' = length g ∧
    (∀ r, (r < GRID_ROWS - 1)%nat → g' !! r = shiftRowTo r <$> g !! S r) ∧
    g' !! (GRID_ROWS - 1)%nat = Some (createRow rnd (GRID_ROWS - 1)) ∧
    (∀ r, (GRID_ROWS ≤ r)%nat → g' !! r = g !! r).
Proof.
  intros Hlen. unfold addRowGrid, GRID_ROWS in *.
  destruct (shiftRows_seq (10 - 1) 0 g) as (g1 & -> & Hlen1 & Hrows); [lia|].
  rewrite bind_Some_l. eexists. split; [done|].
  split; [by rewrite length_insert|].
  split; [|split].
  - intros r Hr. rewrite list_lookup_insert_ne by lia.
    rewrite Hrows. by rewrite decide_True by lia.
  - by rewrite list_lookup_insert_eq by lia.
  - intros r Hr. rewrite list_lookup_insert_ne by lia.
    rewrite Hrows. by rewrite decide_False by lia.
Qed.

(** ** Well-formed grids *)

Lemma gridOK_lookup (g : Grid) :
  gridOK g ↔
  length g = GRID_ROWS ∧ ∀ r blocks, g !! r = Some blocks → rowOK r blocks.
Proof.
  unfold gridOK. split.
  - intros H. split.
    + apply Forall2_length in H. by rewrite length_seq in H.
    + intros r blocks Hr.
      destruct (Forall2_lookup_r _ _ _ _ _ H Hr) as (r' & Hr' & Hok).
      apply lookup_seq in Hr' as [-> _]. done.
  - intros [Hlen Hrows]. apply Forall2_lookup. intros r.
    destruct (decide (r < GRID_ROWS)%nat) as [Hr|Hr].
    + rewrite lookup_seq_lt by done.
      destruct (lookup_lt_is_Some_2 g r) as [blocks Hb]; [lia|].
      rewrite Hb. constructor. by apply Hrows.
    + rewrite lookup_seq_ge by lia. rewrite lookup_ge_None_2 by lia.
      constructor.
Qed.

Lemma elem_of_concat {A : Type} (x : A) (ls : list (list A)) :
  x ∈ concat ls ↔ ∃ l, x ∈ l ∧ l ∈ ls.
Proof.
  induction ls as [|l ls IH]; simpl.
  - split; [by intros ?%elem_of_nil|]. by intros (? & _ & ?%elem_of_nil).
  - rewrite elem_of_app, IH. split.
    + intros [?|(l' & ? & ?)]; [exists l|exists l']; split; try done;
        by constructor.
    + intros (l' & Hx & [->|?]%elem_of_cons); [by left|right; by exists l'].
Qed.

Lemma elem_of_grid (b : Block) (g : Grid) :
  b ∈ concat g ↔ ∃ r blocks, g !! r = Some blocks ∧ b ∈ blocks.
Proof.
  rewrite elem_of_concat. split.
  - intros (blocks & Hb & (r & Hr)%list_elem_of_lookup_1). by exists r, blocks.
  - intros (r & blocks & Hr & Hb). exists blocks. split; [done|].
    by eapply list_elem_of_lookup_2.
Qed.

Lemma gridOK_block (g : Grid) (b : Block) :
  gridOK g → b ∈ concat g → blockOK (row b) b.
Proof.
  intros [_ Hrows]%gridOK_lookup (r & blocks & Hr & Hb)%elem_of_grid.
  destruct (Hrows r blocks Hr) as [Hall _].
  rewrite Forall_forall in Hall. specialize (Hall b Hb).
  destruct Hall as (Heq & ?). by rewrite Heq.
Qed.

Example exampleGrid_OK : gridOK exampleGrid.
Proof. apply (bool_decide_unpack _). by vm_compute. Qed.

(** A well-formed grid satisfies the invariant of the data model. *)
Lemma rows_positions_NoDup (rows : list (list Block)) :
  ∀ k, (∀ i blocks, rows !! i = Some blocks → rowOK (k + i) blocks) →
       NoDup ((λ b, (row b, col b)) <$> concat rows) ∧
       Forall (λ b, (k ≤ row b)%nat) (concat rows).
Proof.
  induction rows as [|blocks rows IH]; intros k Hrows; simpl.
  - split; constructor.
  - destruct (Hrows 0%nat blocks eq_refl) as [Hall Hnd].
    rewrite Nat.add_0_r in Hall.
    destruct (IH (S k)) as [IHnd IHrow].
    { intros i bs Hi. replace (S k + i)%nat with (k + S i)%nat by lia.
      by apply Hrows. }
    assert ((λ b, (row b, col b)) <$> blocks = (λ c, (k, c)) <$> (col <$> blocks))
      as Hpos.
    { rewrite <- list_fmap_compose. apply Forall_fmap_ext.
      eapply Forall_impl; [exact Hall|]. intros b [-> _]. done. }
    split.
    + rewrite fmap_app. apply NoDup_app. split; [|split; [|done]].
      * rewrite Hpos. apply NoDup_fmap_2; [|done]. by intros ?? [=].
      * intros p Hp Hp'. rewrite Hpos in Hp.
        apply list_elem_of_fmap in Hp as (c & -> & _).
        apply list_elem_of_fmap in Hp' as (b & [= Hb _] & Hin).
        rewrite Forall_forall in IHrow. specialize (IHrow b Hin). lia.
    + apply Forall_app. split.
      * eapply Forall_impl; [exact Hall|]. intros b [-> _]. done.
      * eapply Forall_impl; [exact IHrow|]. intros b ?. simpl in *. lia.
Qed.

Lemma gridOK_tilesOK (g : Grid) : gridOK g → tilesOK g.
Proof.
  intros Hok. split.
  - apply gridOK_lookup in Hok as [_ Hrows].
    by apply (rows_positions_NoDup g 0).
  - apply Forall_forall. intros b Hb.
    by destruct (gridOK_block g b Hok Hb) as (_ & _ & ?).
Qed.

(** ** The blocks that stay fit the grid *)

Lemma keptBlocks_filter (selected : list string) (g : Grid) :
  keptBlocks selected g = filter (λ b, bid b ∉ selected) (concat g).
Proof.
  unfold keptBlocks, removeSelected.
  induction g as [|blocks g IH]; [done|].
  rewrite fmap_cons. cbn [concat]. by rewrite filter_app, IH.
Qed.

Lemma elem_of_keptBlocks (selected : list string) (g : Grid) (b : Block) :
  b ∈ keptBlocks selected g ↔ (b ∈ concat g ∧ bid b ∉ selected).
Proof. rewrite keptBlocks_filter, list_elem_of_filter. tauto. Qed.

Lemma elem_of_keptColumn (selected : list string) (g : Grid) (c : nat)
    (b : Block) :
  b ∈ keptColumn selected g c ↔
  (b ∈ concat g ∧ (bid b ∉ selected) ∧ col b = c).
Proof.
  unfold keptColumn, inColumn.
  rewrite sortByRowDesc_elem_of, list_elem_of_filter, elem_of_keptBlocks.
  tauto.
Qed.

Lemma inColumn_row_length (c : nat) (blocks : list Block) :
  NoDup (col <$> blocks) → (length (inColumn c blocks) ≤ 1)%nat.
Proof.
  unfold inColumn. induction blocks as [|a blocks IH]; [simpl; lia|].
  rewrite fmap_cons, NoDup_cons. intros [Ha Hnd].
  rewrite filter_cons. destruct (decide (col a = c)) as [<-|Hne]; [|by apply IH].
  destruct (filter (λ b, col b = col a) blocks) as [|x rest] eqn:Hf; [simpl; lia|].
  exfalso. apply Ha.
  assert (x ∈ filter (λ b, col b = col a) blocks) as Hx by (rewrite Hf; by left).
  apply list_elem_of_filter in Hx as [<- Hx].
  apply list_elem_of_fmap. by exists x.
Qed.

Lemma inColumn_concat_length (c : nat) (rows : list (list Block)) :
  Forall (λ blocks, NoDup (col <$> blocks)) rows →
  (length (inColumn c (concat rows)) ≤ length rows)%nat.
Proof.
  induction 1 as [|blocks rows Hb _ IH]; [simpl; lia|].
  simpl. unfold inColumn in *. rewrite filter_app, length_app.
  pose proof (inColumn_row_length c blocks Hb) as H1. unfold inColumn in H1.
  lia.
Qed.

Lemma gridOK_fitsGrid (selected : list string) (g : Grid) :
  gridOK g → fitsGrid (keptBlocks selected g).
Proof.
  intros Hok. split.
  - apply Forall_forall. intros b [Hb _]%elem_of_keptBlocks.
    by destruct (gridOK_block g b Hok Hb) as (_ & ? & _).
  - intros c. apply gridOK_lookup in Hok as [Hlen Hrows].
    unfold keptBlocks.
    etrans; [apply inColumn_concat_length|].
    + unfold removeSelected. apply Forall_fmap, Forall_forall.
      intros blocks (r & Hr)%list_elem_of_lookup_1. simpl.
      destruct (Hrows r blocks Hr) as [_ Hnd].
      eapply sublist_NoDup; [exact Hnd|].
      apply fmap_sublist, sublist_filter.
    + unfold removeSelected. by rewrite length_fmap, Hlen.
Qed.

(** ** The settled grid *)

Lemma settledGrid_length (selected : list string) (g : Grid) :
  length (settledGrid selected g) = GRID_ROWS.
Proof. unfold settledGrid. by rewrite length_fmap, length_seq. Qed.

Lemma settledGrid_lookup (selected : list string) (g : Grid) (r : nat)
    (blocks : list Block) :
  settledGrid selected g !! r = Some blocks ↔
  (r < GRID_ROWS)%nat ∧
  blocks = omap (settledCell selected g r) (seq 0 GRID_COLS).
Proof.
  unfold settledGrid. rewrite list_lookup_fmap, fmap_Some. split.
  - intros (r' & [-> ?]%lookup_seq & ->). done.
  - intros [Hr ->]. exists r. by rewrite lookup_seq_lt.
Qed.

Lemma elem_of_settledRow (selected : list string) (g : Grid) (r : nat)
    (b' : Block) :
  b' ∈ omap (settledCell selected g r) (seq 0 GRID_COLS) ↔
  ∃ c b, (c < GRID_COLS)%nat ∧
         keptColumn selected g c !! (GRID_ROWS - 1 - r)%nat = Some b ∧
         b' = moveTo r c b.
Proof.
  rewrite list_elem_of_omap. unfold settledCell. split.
  - intros (c & Hc%elem_of_seq & (b & Hb & ->)%fmap_Some).
    exists c, b. split; [lia|done].
  - intros (c & b & Hc & Hb & ->). exists c. split.
    + apply elem_of_seq. lia.
    + by rewrite Hb.
Qed.

Lemma elem_of_settledGrid (selected : list string) (g : Grid) (b' : Block) :
  b' ∈ concat (settledGrid selected g) ↔
  ∃ r c b, (r < GRID_ROWS)%nat ∧ (c < GRID_COLS)%nat ∧
           keptColumn selected g c !! (GRID_ROWS - 1 - r)%nat = Some b ∧
           b' = moveTo r c b.
Proof.
  rewrite elem_of_grid. split.
  - intros (r & blocks & [Hr ->]%settledGrid_lookup
              & (c & b & ? & ? & ->)%elem_of_settledRow).
    by exists r, c, b.
  - intros (r & c & b & Hr & Hc & Hb & ->).
    exists r, (omap (settledCell selected g r) (seq 0 GRID_COLS)). split.
    + by apply settledGrid_lookup.
    + apply elem_of_settledRow. by exists c, b.
Qed.

Lemma omap_cols_sublist (f : nat → option Block) (cs : list nat) :
  (∀ c b, f c = Some b → col b = c) →
  (col <$> omap f cs) `sublist_of` cs.
Proof.
  intros Hf. induction cs as [|c cs IH]; [done|]. csimpl.
  destruct (f c) as [b|] eqn:Hb.
  - rewrite fmap_cons, (Hf c b Hb). by apply sublist_skip.
  - by apply sublist_cons.
Qed.

Lemma settledGrid_OK (selected : list string) (g : Grid) :
  Forall (λ b, validValue (value b)) (concat g) →
  gridOK (settledGrid selected g).
Proof.
  intros Hval. apply gridOK_lookup. split; [apply settledGrid_length|].
  intros r blocks [Hr ->]%settledGrid_lookup. split.
  - apply Forall_forall.
    intros b' (c & b & Hc & Hb & ->)%elem_of_settledRow.
    split; [done|]. split; [done|]. simpl.
    apply list_elem_of_lookup_2, elem_of_keptColumn in Hb as (Hin & _).
    rewrite Forall_forall in Hval. by apply Hval.
  - eapply sublist_NoDup; [apply (NoDup_seq 0 GRID_COLS)|].
    apply omap_cols_sublist. unfold settledCell.
    intros c b (? & _ & ->)%fmap_Some. done.
Qed.

Lemma settledGrid_settled (selected : list string) (g : Grid) :
  settled (settledGrid selected g).
Proof.
  intros b' (r & c & b & Hr & Hc & Hb & ->)%elem_of_settledGrid Hrow.
  simpl in Hrow. unfold GRID_ROWS in *.
  destruct (lookup_lt_is_Some_2 (keptColumn selected g c) (10 - 1 - S r))
    as [b2 Hb2].
  { apply lookup_lt_Some in Hb. lia. }
  exists (moveTo (S r) c b2). split; [|done].
  apply elem_of_settledGrid. exists (S r), c, b2.
  unfold GRID_ROWS. split; [lia|done].
Qed.

(** ** The generators *)

Lemma pow2_pos (t : Z) : (0 < pow2 t)%Q.
Proof. apply Qpower_0_lt. reflexivity. Qed.

Lemma pow2_succ (t : Z) : (pow2 (t + 1) == 2 * pow2 t)%Q.
Proof.
  unfold pow2. rewrite Qpower_plus by discriminate.
  change (2 ^ 1)%Q with 2%Q. ring.
Qed.

Lemma pow2_le (a b : Z) : a ≤ b → (pow2 a <= pow2 b)%Q.
Proof. intros H. apply Qpower_le_compat_l; [done|discriminate]. Qed.

Lemma pow2_lt_inv (a b : Z) : (pow2 a < pow2 b)%Q → a < b.
Proof. intros H. by apply (Qpower_lt_compat_l_inv 2). Qed.

Lemma pow2_inject (k : Z) : 0 ≤ k → (inject_Z (2 ^ k) == pow2 k)%Q.
Proof. intros H. by rewrite Zpower_Qpower. Qed.

(** [binade x] is the exponent of the power of two at or below [x]. *)
Lemma binade_spec (x : Q) :
  (0 < x)%Q → (pow2 (binade x) <= x)%Q ∧ (x < pow2 (binade x + 1))%Q.
Proof.
  intros Hx. destruct x as [n d].
  assert (Hn : 0 < n) by (unfold Qlt in Hx; simpl in Hx; lia).
  unfold binade. cbn [Qnum Qden].
  set (ln := Z.log2 n). set (ld := Z.log2 (Z.pos d)).
  destruct (Z.log2_spec n Hn) as [Hn1 Hn2].
  destruct (Z.log2_spec (Z.pos d) eq_refl) as [Hd1 Hd2].
  fold ln in Hn1, Hn2. fold ld in Hd1, Hd2.
  assert (Hln : 0 ≤ ln) by apply Z.log2_nonneg.
  assert (Hld : 0 ≤ ld) by apply Z.log2_nonneg.
  rewrite Zle_Qle, pow2_inject in Hn1, Hd1 by done.
  rewrite Zlt_Qlt, pow2_inject in Hn2, Hd2 by lia.
  unfold Z.succ in Hn2, Hd2. rewrite pow2_succ in Hn2, Hd2.
  assert (Hxd : ((n # d) * inject_Z (Z.pos d) == inject_Z n)%Q).
  { unfold Qeq, Qmult, inject_Z. simpl. lia. }
  assert (Hdp : (0 < inject_Z (Z.pos d))%Q).
  { rewrite <- (Zlt_Qlt 0). done. }
  assert (Ht : (pow2 (ln - ld) * pow2 ld == pow2 ln)%Q).
  { unfold pow2. rewrite <- Qpower_plus by discriminate.
    by replace (ln - ld + ld) with ln by lia. }
  pose proof (pow2_pos (ln - ld)) as Htp.
  pose proof (pow2_pos ld) as Hldp.
  pose proof (pow2_succ (ln - ld)) as Hs.
  pose proof (pow2_succ (ln - ld - 1)) as Hp.
  replace (ln - ld - 1 + 1) with (ln - ld) in Hp by lia.
  set (x := (n # d)%Q) in *. set (D := inject_Z (Z.pos d)) in *.
  set (N := inject_Z n) in *. set (T := pow2 (ln - ld)) in *.
  set (A := pow2 ln) in *. set (B := pow2 ld) in *.
  assert (Hup : (x < 2 * T)%Q) by nra.
  assert (Hlo : (T < 2 * x)%Q) by nra.
  destruct (Qle_bool T x) eqn:Hb.
  - apply Qle_bool_iff in Hb. split; [done|]. rewrite Hs. done.
  - assert (Hlt : (x < T)%Q).
    { apply Qnot_le_lt. intros Hle. apply Qle_bool_iff in Hle. congruence. }
    replace (ln - ld - 1 + 1) with (ln - ld) by lia. fold T.
    split; [|done]. set (T' := pow2 (ln - ld - 1)) in *. lra.
Qed.

(** Rounding moves a number by at most half a unit. *)
Lemma roundHalfEven_bounds (s : Q) :
  (s - (1 # 2) <= inject_Z (roundHalfEven s))%Q ∧
  (inject_Z (roundHalfEven s) <= s + (1 # 2))%Q.
Proof.
  unfold roundHalfEven.
  pose proof (Qfloor_le (s + (1 # 2))) as Hlo.
  pose proof (Qlt_floor (s + (1 # 2))) as Hhi.
  rewrite inject_Z_plus in Hhi.
  set (f := Qfloor (s + (1 # 2))) in *.
  destruct (Qeq_bool (s + (1 # 2)) (inject_Z f)) eqn:He; simpl.
  - apply Qeq_bool_iff in He.
    destruct (Z.odd f).
    + unfold Z.sub. rewrite inject_Z_plus.
      change (inject_Z (- (1))) with (- (1))%Q. split; lra.
    + change (inject_Z 1) with 1%Q in Hhi. split; lra.
  - change (inject_Z 1) with 1%Q in Hhi. split; lra.
Qed.

Lemma roundPositive_bounds (x : Q) :
  (x - (1 # 2) * pow2 (ulpExponent x) <= roundPositive x)%Q ∧
  (roundPositive x <= x + (1 # 2) * pow2 (ulpExponent x))%Q.
Proof.
  unfold roundPositive. pose proof (pow2_pos (ulpExponent x)) as Hp.
  set (p := pow2 (ulpExponent x)) in *.
  destruct (roundHalfEven_bounds (x / p)) as [Hlo Hhi].
  assert (Hs : (x / p * p == x)%Q) by (rewrite Qmult_comm; apply Qmult_div_r; lra).
  set (s := (x / p)%Q) in *. set (z := inject_Z (roundHalfEven s)) in *.
  split; nra.
Qed.

Lemma roundDouble_nonneg (x : Q) : (0 <= x)%Q → (0 <= roundDouble x)%Q.
Proof.
  intros Hx. unfold roundDouble.
  destruct (x ?= 0)%Q eqn:Hc.
  - done.
  - apply Qlt_alt in Hc. lra.
  - apply Qgt_alt in Hc. unfold roundPositive.
    pose proof (pow2_pos (ulpExponent x)) as Hp.
    set (p := pow2 (ulpExponent x)) in *.
    destruct (roundHalfEven_bounds (x / p)) as [Hlo _].
    assert (Hs : (x / p * p == x)%Q) by (rewrite Qmult_comm; apply Qmult_div_r; lra).
    set (s := (x / p)%Q) in *.
    assert (Hz : 0 ≤ roundHalfEven s).
    { assert (Hs0 : (0 <= s)%Q) by nra.
      assert (H1 : (inject_Z (-1) < inject_Z (roundHalfEven s))%Q).
      { change (inject_Z (-1)) with (-1)%Q. lra. }
      rewrite <- Zlt_Qlt in H1. lia. }
    rewrite Zle_Qle in Hz. change (inject_Z 0) with 0%Q in Hz.
    set (z := inject_Z (roundHalfEven s)) in *. nra.
Qed.

(** The doubles below 1 stop at [1 - 2^-53]. *)
Lemma unitDraw_below_one (u : Q) :
  unitDraw u → (u <= 1 - (1 # 2 ^ 53))%Q.
Proof.
  intros (Hd & H0 & H1). unfold isDouble, roundDouble in Hd.
  change (2 ^ 53)%positive with 9007199254740992%positive.
  destruct (u ?= 0)%Q eqn:Hc.
  - apply Qeq_alt in Hc. lra.
  - apply Qlt_alt in Hc. lra.
  - apply Qgt_alt in Hc.
    destruct (binade_spec u Hc) as [Hlo Hhi].
    assert (He : binade u < 0).
    { apply pow2_lt_inv. change (pow2 0) with 1%Q. lra. }
    destruct (decide (binade u = -1)) as [He1|He1].
    + unfold roundPositive, ulpExponent in Hd. rewrite He1 in Hd.
      change (pow2 (Z.max (-1) (-1022) - 52))
        with (1 # 9007199254740992)%Q in Hd.
      set (z := roundHalfEven (u / (1 # 9007199254740992))) in *.
      assert (Hz : z < 9007199254740992).
      { rewrite Zlt_Qlt.
        change (inject_Z 9007199254740992) with 9007199254740992%Q.
        set (q := inject_Z z) in *. lra. }
      assert (Hz' : z ≤ 9007199254740991) by lia.
      rewrite Zle_Qle in Hz'.
      change (inject_Z 9007199254740991) with 9007199254740991%Q in Hz'.
      set (q := inject_Z z) in *. lra.
    + assert (Hle : (pow2 (binade u + 1) <= pow2 (-1))%Q) by (apply pow2_le; lia).
      change (pow2 (-1)) with (1 # 2)%Q in Hle. lra.
Qed.

(** [Math.floor(Math.random() * k)] is one of [0 .. k-1] for the ranges
    of the code: the largest draw is [1 - 2^-53], its product with [k]
    is more than half a unit below [k], and so rounds below [k]. *)
Lemma floor_scaled_draw (u : Q) (k : Z) :
  unitDraw u → 8 < k ≤ 16 →
  0 ≤ Qfloor (doubleMul u (inject_Z k)) < k.
Proof.
  intros Hu Hk. unfold doubleMul. pose proof (unitDraw_below_one u Hu) as Hmax.
  destruct Hu as (_ & H0 & H1).
  change (2 ^ 53)%positive with 9007199254740992%positive in Hmax.
  assert (Hk1 : (8 < inject_Z k)%Q).
  { change (inject_Z 8 < inject_Z k)%Q. rewrite <- Zlt_Qlt. lia. }
  assert (Hk2 : (inject_Z k <= 16)%Q).
  { change (inject_Z k <= inject_Z 16)%Q. rewrite <- Zle_Qle. lia. }
  set (K := inject_Z k) in *. set (x := (u * K)%Q).
  assert (Hx0 : (0 <= x)%Q) by (unfold x; nra).
  assert (Hx1 : (x <= K - K * (1 # 9007199254740992))%Q) by (unfold x; nra).
  split.
  - change 0 with (Qfloor 0). apply Qfloor_resp_le. by apply roundDouble_nonneg.
  - rewrite Zlt_Qlt. fold K.
    eapply Qle_lt_trans; [apply Qfloor_le|].
    unfold roundDouble. destruct (x ?= 0)%Q eqn:Hc.
    + lra.
    + apply Qlt_alt in Hc. lra.
    + apply Qgt_alt in Hc.
      destruct (roundPositive_bounds x) as [_ Hhi].
      destruct (binade_spec x Hc) as [Hlo _].
      assert (He : binade x < 4).
      { apply pow2_lt_inv. change (pow2 4) with 16%Q. nra. }
      assert (Hp : (pow2 (ulpExponent x) <= pow2 (-49))%Q).
      { apply pow2_le. unfold ulpExponent. lia. }
      change (pow2 (-49)) with (1 # 562949953421312)%Q in Hp.
      set (p := pow2 (ulpExponent x)) in *. nra.
Qed.

Lemma randomValue_valid (u : Q) : unitDraw u → validValue (randomValue u).
Proof.
  intros Hu. unfold validValue, randomValue.
  assert (H : 0 ≤ Qfloor (doubleMul u (inject_Z MAX_VALUE)) < MAX_VALUE)
    by (apply floor_scaled_draw; [done|unfold MAX_VALUE; lia]).
  unfold MAX_VALUE in *. lia.
Qed.

Lemma generateTarget_bounds (u : Q) (m : GameMode) (lvl : Z) :
  unitDraw u →
  10 + lvl / 2 ≤ generateTarget u m lvl ≤ 19 + lvl / 2.
Proof.
  intros Hu. unfold generateTarget.
  pose proof (floor_scaled_draw u 10 Hu ltac:(lia)). lia.
Qed.

Lemma elem_of_createRow (rnd : RowDraw) (r : nat) (b : Block) :
  b ∈ createRow rnd r ↔
  ∃ c, (c < GRID_COLS)%nat ∧
       b = mkBlock (rnd c).1 (randomValue (rnd c).2) r c.
Proof.
  unfold createRow. rewrite list_elem_of_fmap. split.
  - intros (c & -> & Hc%elem_of_seq). exists c. split; [lia|done].
  - intros (c & Hc & ->). exists c. split; [done|]. apply elem_of_seq. lia.
Qed.

Lemma createRow_cols (rnd : RowDraw) (r : nat) :
  col <$> createRow rnd r = seq 0 GRID_COLS.
Proof.
  unfold createRow. rewrite <- list_fmap_compose.
  rewrite <- (list_fmap_id (seq 0 GRID_COLS)) at 2.
  by apply list_fmap_ext.
Qed.

Lemma createRow_ids (rnd : RowDraw) (r : nat) :
  bid <$> createRow rnd r = freshIds rnd.
Proof. unfold createRow, freshIds. by rewrite <- list_fmap_compose. Qed.

Lemma createRow_OK (rnd : RowDraw) (r : nat) :
  unitRow rnd → rowOK r (createRow rnd r).
Proof.
  intros Hrnd. split.
  - apply Forall_forall. intros b (c & Hc & ->)%elem_of_createRow.
    split; [done|]. split; [done|]. simpl. apply randomValue_valid.
    unfold unitRow in Hrnd. rewrite Forall_forall in Hrnd.
    apply Hrnd, elem_of_seq. lia.
  - rewrite createRow_cols. apply NoDup_seq.
Qed.

(** ** [addRow] on a well-formed grid *)

Lemma shiftRowTo_OK (r r' : nat) (blocks : list Block) :
  rowOK r' blocks → rowOK r (shiftRowTo r blocks).
Proof.
  intros [Hall Hnd]. unfold shiftRowTo. split.
  - apply Forall_fmap. eapply Forall_impl; [exact Hall|].
    intros b (_ & ? & ?). by split.
  - by rewrite <- list_fmap_compose.
Qed.

Lemma addRowGrid_OK (rnd : RowDraw) (g : Grid) :
  unitRow rnd → gridOK g →
  ∃ g', addRowGrid rnd g = Some g' ∧ gridOK g'.
Proof.
  intros Hrnd [Hlen Hrows]%gridOK_lookup.
  destruct (addRowGrid_spec rnd g) as (g' & Hg' & Hlen' & Hup & Hnew & _);
    [lia|].
  exists g'. split; [done|]. apply gridOK_lookup. split; [lia|].
  intros r blocks Hr.
  destruct (decide (r < GRID_ROWS - 1)%nat) as [Hlt|Hge].
  - rewrite Hup in Hr by done.
    apply fmap_Some in Hr as (old & Hold & ->).
    eapply shiftRowTo_OK. by apply Hrows.
  - assert (r = GRID_ROWS - 1)%nat as ->.
    { apply lookup_lt_Some in Hr. lia. }
    rewrite Hnew in Hr. injection Hr as <-. by apply createRow_OK.
Qed.

Lemma elem_of_addRowGrid (rnd : RowDraw) (g g' : Grid) (b' : Block) :
  length g = GRID_ROWS → addRowGrid rnd g = Some g' →
  b' ∈ concat g' ↔
  ((∃ r blocks b, (r < GRID_ROWS - 1)%nat ∧ g !! S r = Some blocks ∧
                  b ∈ blocks ∧ b' = withRow r b)
   ∨ b' ∈ createRow rnd (GRID_ROWS - 1)).
Proof.
  intros Hlen Hg'.
  destruct (addRowGrid_spec rnd g) as (g2 & Hg2 & Hlen' & Hup & Hnew & _);
    [lia|].
  rewrite Hg' in Hg2. injection Hg2 as <-.
  rewrite elem_of_grid. split.
  - intros (r & blocks & Hr & Hb).
    destruct (decide (r < GRID_ROWS - 1)%nat) as [Hlt|Hge].
    + rewrite Hup in Hr by done.
      apply fmap_Some in Hr as (old & Hold & ->).
      apply list_elem_of_fmap in Hb as (b & -> & Hb).
      left. by exists r, old, b.
    + assert (r = GRID_ROWS - 1)%nat as ->.
      { apply lookup_lt_Some in Hr. lia. }
      rewrite Hnew in Hr. injection Hr as <-. by right.
  - intros [(r & blocks & b & Hr & Hold & Hb & ->)|Hb].
    + exists r, (shiftRowTo r blocks). split.
      * rewrite Hup by done. by rewrite Hold.
      * apply list_elem_of_fmap. by exists b.
    + by exists (GRID_ROWS - 1)%nat, (createRow rnd (GRID_ROWS - 1)).
Qed.

(** ** The sum effect on a match *)

Lemma evaluateSelection_match (ut : Q) (rnd : RowDraw) (st : State) :
  matched st → gridOK (grid st) →
  ∃ g', gridAfterMatch rnd st = Some g' ∧
    evaluateSelection ut rnd st =
    Some {| gameState := gameState st;
            mode := mode st;
            grid := g';
            selectedIds := [];
            target := generateTarget ut (mode st) (level st);
            score := score st
                     + target st * Z.of_nat (length (selectedIds st));
            level := if decide (score st > level st * 500)
                     then level st + 1 else level st;
            timeLeft := TIME_LIMIT;
            isPaused := isPaused st;
            highScore := highScore st |}.
Proof.
  intros Hm Hok. unfold evaluateSelection, gridAfterMatch. cbv zeta.
  rewrite decide_True by exact Hm.
  rewrite gravity_spec by by apply gridOK_fitsGrid.
  rewrite bind_Some_l.
  destruct (mode st).
  - destruct (addRowGrid_spec rnd (settledGrid (selectedIds st) (grid st)))
      as (g' & -> & _); [by rewrite settledGrid_length|].
    by exists g'.
  - by eexists.
Qed.

(** A block that stays lands in its column. *)
Lemma kept_block_lands (selected : list string) (g : Grid) (b : Block) :
  gridOK g → b ∈ concat g → bid b ∉ selected →
  ∃ r, (r < GRID_ROWS)%nat ∧
       keptColumn selected g (col b) !! (GRID_ROWS - 1 - r)%nat = Some b ∧
       moveTo r (col b) b ∈ concat (settledGrid selected g).
Proof.
  intros Hok Hb Hsel.
  assert (b ∈ keptColumn selected g (col b)) as Hin
    by by apply elem_of_keptColumn.
  apply list_elem_of_lookup_1 in Hin as [j Hj].
  assert (j < GRID_ROWS)%nat as Hlt.
  { apply lookup_lt_Some in Hj. unfold keptColumn in Hj.
    rewrite sortByRowDesc_length in Hj.
    destruct (gridOK_fitsGrid selected g Hok) as [_ Hfit].
    specialize (Hfit (col b)). lia. }
  exists (GRID_ROWS - 1 - j)%nat. unfold GRID_ROWS in *.
  replace (10 - 1 - (10 - 1 - j))%nat with j by lia.
  split; [lia|]. split; [done|].
  apply elem_of_settledGrid. exists (10 - 1 - j)%nat, (col b), b.
  unfold GRID_ROWS, GRID_COLS.
  replace (10 - 1 - (10 - 1 - j))%nat with j by lia.
  split; [lia|]. split; [|done].
  by destruct (gridOK_block g b Hok Hb) as (_ & ? & _).
Qed.

(** With the top row free, no column of the grid is full, and the top row
    of the settled grid is free again. *)
Lemma keptColumn_below_top (selected : list string) (g : Grid) (c : nat) :
  gridOK g → topRowOccupied g = false →
  (length (keptColumn selected g c) < GRID_ROWS)%nat.
Proof.
  intros [Hlen Hrows]%gridOK_lookup Htop.
  destruct g as [|row0 g]; [done|]. destruct row0; [|done].
  unfold keptColumn. rewrite sortByRowDesc_length.
  unfold keptBlocks, removeSelected. rewrite fmap_cons, filter_nil.
  cbn [concat app].
  eapply Nat.le_lt_trans; [apply inColumn_concat_length|].
  - apply Forall_fmap, Forall_forall.
    intros blocks (r & Hr)%list_elem_of_lookup_1. simpl.
    destruct (Hrows (S r) blocks Hr) as [_ Hnd].
    eapply sublist_NoDup; [exact Hnd|].
    apply fmap_sublist, sublist_filter.
  - rewrite length_fmap. simpl in Hlen. lia.
Qed.

Lemma kept_block_survives (rnd : RowDraw) (st : State) (g' : Grid) (b : Block) :
  gridOK (grid st) →
  (mode st = ModeClassic → topRowOccupied (grid st) = false) →
  gridAfterMatch rnd st = Some g' →
  b ∈ concat (grid st) → bid b ∉ selectedIds st →
  ∃ b', b' ∈ concat g' ∧ bid b' = bid b ∧ value b' = value b ∧
        col b' = col b.
Proof.
  intros Hok Htop Hg' Hb Hsel.
  destruct (kept_block_lands (selectedIds st) (grid st) b Hok Hb Hsel)
    as (r & Hr & Hcol & Hin).
  unfold gridAfterMatch in Hg'. destruct (mode st) eqn:Hmode.
  - specialize (Htop eq_refl).
    pose proof (keptColumn_below_top (selectedIds st) (grid st) (col b)
                  Hok Htop) as Hfree.
    apply lookup_lt_Some in Hcol. unfold GRID_ROWS in *.
    destruct r as [|r]; [lia|].
    apply elem_of_grid in Hin as (r' & blocks & Hr' & Hin).
    assert (r' = S r) as ->.
    { apply settledGrid_lookup in Hr' as [_ ->].
      apply elem_of_settledRow in Hin as (c & x & _ & _ & Heq).
      by injection Heq. }
    exists (withRow r (moveTo (S r) (col b) b)). split; [|done].
    eapply elem_of_addRowGrid; [|exact Hg'|].
    + apply settledGrid_length.
    + left. exists r, blocks, (moveTo (S r) (col b) b).
      unfold GRID_ROWS. split; [lia|done].
  - injection Hg' as <-. by exists (moveTo r (col b) b).
Qed.

Lemma elem_of_ids (g : Grid) (i : string) :
  i ∈ ids g ↔ ∃ b, b ∈ concat g ∧ bid b = i.
Proof.
  unfold ids. rewrite list_elem_of_fmap. split.
  - intros (b & -> & ?). by exists b.
  - intros (b & ? & <-). by exists b.
Qed.

(** No id of the grid after a match is a selected id, as long as the row
    that classic mode adds brings ids of its own. *)
Lemma selected_ids_gone (rnd : RowDraw) (st : State) (g' : Grid) (i : string) :
  (mode st = ModeClassic → Forall (λ j, j ∉ selectedIds st) (freshIds rnd)) →
  gridAfterMatch rnd st = Some g' →
  i ∈ ids g' → i ∉ selectedIds st.
Proof.
  intros Hfresh Hg' (b' & Hb' & <-)%elem_of_ids.
  assert (∀ x, x ∈ concat (settledGrid (selectedIds st) (grid st)) →
               bid x ∉ selectedIds st) as Hsettled.
  { intros x (r & c & b & _ & _ & Hb & ->)%elem_of_settledGrid. simpl.
    by apply list_elem_of_lookup_2, elem_of_keptColumn in Hb as (_ & ? & _). }
  unfold gridAfterMatch in Hg'. destruct (mode st).
  - eapply elem_of_addRowGrid in Hb'; [|apply settledGrid_length|exact Hg'].
    destruct Hb' as [(r & blocks & b & _ & Hr & Hb & ->)|Hnew].
    + simpl. apply Hsettled, elem_of_grid. by exists (S r), blocks.
    + specialize (Hfresh eq_refl). rewrite Forall_forall in Hfresh.
      apply Hfresh. rewrite <- (createRow_ids rnd (GRID_ROWS - 1)).
      apply list_elem_of_fmap. by exists b'.
  - injection Hg' as <-. by apply Hsettled.
Qed.

(** With unique ids, [selectedIds.length] counts the selected tiles. *)
Lemma selected_count (selected : list string) (blocks : list Block) :
  NoDup selected → NoDup (bid <$> blocks) →
  (∀ i, i ∈ selected → i ∈ bid <$> blocks) →
  length (filter (λ b, bid b ∈ selected) blocks) = length selected.
Proof.
  intros Hsel Hids Hsub.
  rewrite <- (length_fmap bid). apply Permutation_length.
  apply NoDup_Permutation; [|done|].
  - eapply sublist_NoDup; [exact Hids|]. apply fmap_sublist, sublist_filter.
  - intros i. rewrite list_elem_of_fmap. split.
    + by intros (b & -> & [? _]%list_elem_of_filter).
    + intros Hi. apply Hsub in Hi as Hin.
      apply list_elem_of_fmap in Hin as (b & -> & Hb).
      exists b. split; [done|]. by apply list_elem_of_filter.
Qed.

(** ** What a match does to the score, the selection and the tiles *)

(** C1.  In a playing, non-paused state whose selected tiles sum to the
    positive target, [evaluateSelection] adds [target * selectedIds.length]
    to the score, empties the selection and removes exactly the selected
    tiles: a tile of the grid is still there afterwards if and only if it
    was not selected.  With unique ids, [selectedIds.length] is the number
    of selected tiles.  The state is one on which the game-over effect has
    run (in classic mode the top row is free), and the row that classic
    mode adds brings ids that are not selected. *)
Theorem match_awards_and_clears (ut : Q) (rnd : RowDraw) (st : State) :
  gameState st = Playing → isPaused st = false →
  gridOK (grid st) →
  (mode st = ModeClassic → topRowOccupied (grid st) = false) →
  (mode st = ModeClassic → Forall (λ j, j ∉ selectedIds st) (freshIds rnd)) →
  matched st →
  ∃ st', evaluateSelection ut rnd st = Some st' ∧
    score st' = score st + target st * Z.of_nat (length (selectedIds st)) ∧
    selectedIds st' = [] ∧
    (∀ b, b ∈ concat (grid st) →
          (bid b ∈ ids (grid st') ↔ bid b ∉ selectedIds st)) ∧
    (NoDup (selectedIds st) → NoDup (ids (grid st)) →
     (∀ i, i ∈ selectedIds st → i ∈ ids (grid st)) →
     length (filter (λ b, bid b ∈ selectedIds st) (concat (grid st)))
     = length (selectedIds st)).
Proof.
  intros _ _ Hok Htop Hfresh Hm.
  destruct (evaluateSelection_match ut rnd st Hm Hok) as (g' & Hg' & ->).
  eexists. split; [done|]. simpl. split; [done|]. split; [done|]. split.
  - intros b Hb. split.
    + by eapply selected_ids_gone.
    + intros Hsel.
      destruct (kept_block_survives rnd st g' b) as (b' & Hb' & Hid & _);
        [done..|].
      apply elem_of_ids. by exists b'.
  - apply selected_count.
Qed.

(** The example of the specification: selected values 3 and 7, target 10.
    Both tiles go and the score grows by 20. *)
Lemma match_awards_and_clears_witness :
  ∃ st', evaluateSelection (1 # 2) exampleDraw
           (exampleState ModeClassic ["a"; "g"] 10) = Some st' ∧
    score st' = 0 + 10 * Z.of_nat (length ["a"; "g"]) ∧
    selectedIds st' = [] ∧
    (∀ b, b ∈ concat exampleGrid →
          (bid b ∈ ids (grid st') ↔ bid b ∉ ["a"; "g"])) ∧
    (NoDup ["a"; "g"] → NoDup (ids exampleGrid) →
     (∀ i, i ∈ ["a"; "g"] → i ∈ ids exampleGrid) →
     length (filter (λ b, bid b ∈ ["a"; "g"]) (concat exampleGrid))
     = length ["a"; "g"]).
Proof.
  apply (match_awards_and_clears (1 # 2) exampleDraw
           (exampleState ModeClassic ["a"; "g"] 10)).
  - reflexivity.
  - reflexivity.
  - apply (bool_decide_unpack _). by vm_compute.
  - intros _. reflexivity.
  - intros _. apply (bool_decide_unpack _). by vm_compute.
  - split; reflexivity.
Defined.

(** A block of a well-formed grid is in the row that its [row] field
    names. *)
Lemma gridOK_row_of (g : Grid) (b : Block) :
  gridOK g → b ∈ concat g →
  ∃ blocks, g !! row b = Some blocks ∧ b ∈ blocks.
Proof.
  intros [_ Hrows]%gridOK_lookup (r & blocks & Hr & Hb)%elem_of_grid.
  destruct (Hrows r blocks Hr) as [Hall _].
  rewrite Forall_forall in Hall. destruct (Hall b Hb) as (-> & _).
  by exists blocks.
Qed.

Lemma addRowGrid_settled (rnd : RowDraw) (g g' : Grid) :
  gridOK g → settled g → addRowGrid rnd g = Some g' → settled g'.
Proof.
  intros Hok Hset Hg' b' Hb' Hrow.
  pose proof Hok as [Hlen _]%gridOK_lookup.
  apply (elem_of_addRowGrid rnd g g' b' Hlen Hg') in Hb'
    as [(r & blocks & b & Hr & Hold & Hb & ->)|Hnew].
  - assert (b ∈ concat g) as Hin by (apply elem_of_grid; by exists (S r), blocks).
    destruct (gridOK_block g b Hok Hin) as (_ & Hcol & _).
    assert (row b = S r) as Hrb.
    { apply gridOK_lookup in Hok as [_ Hrows].
      destruct (Hrows (S r) blocks Hold) as [Hall _].
      rewrite Forall_forall in Hall. by destruct (Hall b Hb). }
    simpl. unfold GRID_ROWS in *.
    destruct (decide (S r = 9)%nat) as [Hlast|Hmid].
    + exists (mkBlock (rnd (col b)).1 (randomValue (rnd (col b)).2) 9 (col b)).
      split; [|split; [done|simpl; lia]].
      eapply elem_of_addRowGrid; [done|exact Hg'|]. right.
      apply elem_of_createRow. by exists (col b).
    + destruct (Hset b Hin) as (b2 & Hb2 & Hcol2 & Hrow2);
        [unfold GRID_ROWS; lia|].
      destruct (gridOK_row_of g b2 Hok Hb2) as (blocks2 & Hr2 & Hin2).
      exists (withRow (S r) b2). split; [|done].
      eapply elem_of_addRowGrid; [done|exact Hg'|]. left.
      exists (S r), blocks2, b2. unfold GRID_ROWS.
      split; [lia|]. split; [|done]. by rewrite <- Hrb, <- Hrow2.
  - apply elem_of_createRow in Hnew as (c & _ & ->). simpl in Hrow. lia.
Qed.

(** The match of the selected values 3 and 7 with target 10 in time mode,
    computed: column 0 is empty afterwards, the other tiles are where they
    were, the score is 20. *)
Example match_3_7_target_10 :
  evaluateSelection (1 # 2) exampleDraw (exampleState ModeTime ["a"; "g"] 10)
  = Some {| gameState := Playing; mode := ModeTime;
            grid := [ []; []; []; []; []; []; []; [];
                      [tile "b" 5 8 1; tile "c" 2 8 2; tile "d" 4 8 3;
                       tile "e" 6 8 4; tile "f" 1 8 5];
                      [tile "h" 8 9 1; tile "i" 9 9 2; tile "j" 1 9 3;
                       tile "k" 2 9 4; tile "l" 3 9 5] ];
            selectedIds := []; target := 15; score := 20; level := 1;
            timeLeft := 10; isPaused := false; highScore := 0 |}.
Proof. by vm_compute. Qed.

(** Gravity, computed: with the bottom tiles of columns 0 and 1 removed,
    the tiles above them fall to the bottom row. *)
Example gravity_drops_tiles :
  gravity ["g"; "h"] exampleGrid
  = Some [ []; []; []; []; []; []; []; [];
           [tile "c" 2 8 2; tile "d" 4 8 3; tile "e" 6 8 4; tile "f" 1 8 5];
           [tile "a" 3 9 0; tile "b" 5 9 1; tile "i" 9 9 2; tile "j" 1 9 3;
            tile "k" 2 9 4; tile "l" 3 9 5] ].
Proof. by vm_compute. Qed.

(** C2.  After [evaluateSelection] on a match, no selected id is left in
    the grid, and every tile stands on the bottom row or on another tile
    of its column.  (The row that classic mode adds brings ids that are
    not selected.) *)
Theorem match_leaves_settled_grid (ut : Q) (rnd : RowDraw) (st : State) :
  gridOK (grid st) →
  (mode st = ModeClassic → Forall (λ j, j ∉ selectedIds st) (freshIds rnd)) →
  matched st →
  ∃ st', evaluateSelection ut rnd st = Some st' ∧
    (∀ i, i ∈ selectedIds st → i ∉ ids (grid st')) ∧
    settled (grid st').
Proof.
  intros Hok Hfresh Hm.
  destruct (evaluateSelection_match ut rnd st Hm Hok) as (g' & Hg' & ->).
  eexists. split; [done|]. simpl. split.
  - intros i Hi Hin. by eapply selected_ids_gone.
  - unfold gridAfterMatch in Hg'. destruct (mode st).
    + eapply addRowGrid_settled; [|apply settledGrid_settled|exact Hg'].
      apply settledGrid_OK.
      by destruct (gridOK_tilesOK _ Hok).
    + injection Hg' as <-. apply settledGrid_settled.
Qed.

Lemma match_leaves_settled_grid_witness :
  ∃ st', evaluateSelection (1 # 2) exampleDraw
           (exampleState ModeClassic ["b"; "g"; "f"; "k"] 15) = Some st' ∧
    (∀ i, i ∈ ["b"; "g"; "f"; "k"] → i ∉ ids (grid st')) ∧
    settled (grid st').
Proof.
  apply (match_leaves_settled_grid (1 # 2) exampleDraw
           (exampleState ModeClassic ["b"; "g"; "f"; "k"] 15)).
  - apply (bool_decide_unpack _). by vm_compute.
  - intros _. apply (bool_decide_unpack _). by vm_compute.
  - split; reflexivity.
Defined.

(** C10.  On a match, every tile that is not selected is still in the
    grid afterwards, with its id, value and column; only its row may have
    changed.  (The state is one on which the game-over effect has run:
    in classic mode the top row is free.) *)
Theorem unselected_tiles_survive (ut : Q) (rnd : RowDraw) (st : State) :
  gridOK (grid st) →
  (mode st = ModeClassic → topRowOccupied (grid st) = false) →
  matched st →
  ∃ st', evaluateSelection ut rnd st = Some st' ∧
    ∀ b, b ∈ concat (grid st) → bid b ∉ selectedIds st →
         ∃ b', b' ∈ concat (grid st') ∧ bid b' = bid b ∧
               value b' = value b ∧ col b' = col b.
Proof.
  intros Hok Htop Hm.
  destruct (evaluateSelection_match ut rnd st Hm Hok) as (g' & Hg' & ->).
  eexists. split; [done|]. simpl. intros b Hb Hsel.
  by eapply kept_block_survives.
Qed.

Lemma unselected_tiles_survive_witness :
  ∃ st', evaluateSelection (1 # 2) exampleDraw
           (exampleState ModeTime ["a"; "g"] 10) = Some st' ∧
    ∀ b, b ∈ concat exampleGrid → bid b ∉ ["a"; "g"] →
         ∃ b', b' ∈ concat (grid st') ∧ bid b' = bid b ∧
               value b' = value b ∧ col b' = col b.
Proof.
  apply (unselected_tiles_survive (1 # 2) exampleDraw
           (exampleState ModeTime ["a"; "g"] 10)).
  - apply (bool_decide_unpack _). by vm_compute.
  - intros _. reflexivity.
  - split; reflexivity.
Defined.

(** ** Order within a column *)

Lemma NoDup_fmap_inj_on {A B : Type} (f : A → B) (l : list A) (x y : A) :
  NoDup (f <$> l) → x ∈ l → y ∈ l → f x = f y → x = y.
Proof.
  intros Hnd [i Hi]%list_elem_of_lookup_1 [j Hj]%list_elem_of_lookup_1 Hxy.
  assert (i = j) as ->.
  { apply (NoDup_lookup (f <$> l) i j (f x) Hnd).
    - by rewrite list_lookup_fmap, Hi.
    - by rewrite list_lookup_fmap, Hj, Hxy. }
  congruence.
Qed.

(** The block of the settled grid that carries the id of a block that
    stays is that block, moved: it sits at the place of its column order. *)
Lemma settled_block_origin (selected : list string) (g : Grid) (a a' : Block) :
  NoDup (ids g) →
  a ∈ concat g → a' ∈ concat (settledGrid selected g) → bid a' = bid a →
  ∃ j, (j < GRID_ROWS)%nat ∧ keptColumn selected g (col a) !! j = Some a ∧
       row a' = (GRID_ROWS - 1 - j)%nat ∧ col a' = col a.
Proof.
  intros Hids Ha (r & c & x & Hr & Hc & Hx & ->)%elem_of_settledGrid Hid.
  simpl in Hid.
  pose proof (list_elem_of_lookup_2 _ _ _ Hx) as Hin.
  apply elem_of_keptColumn in Hin as (Hxg & _ & Hxc).
  assert (x = a) as -> by by eapply (NoDup_fmap_inj_on bid (concat g)).
  subst c. exists (GRID_ROWS - 1 - r)%nat. unfold GRID_ROWS in *. simpl.
  split; [lia|]. split; [done|]. split; [lia|done].
Qed.

(** C9.  Gravity keeps the vertical order within a column: of two tiles
    that stay in the same column, the one that was above the other is
    still above it when the column has settled.  Tiles are told apart by
    their unique ids. *)
Theorem gravity_keeps_column_order (selected : list string) (g : Grid) :
  gridOK g → NoDup (ids g) →
  ∃ g', gravity selected g = Some g' ∧
    ∀ a b,
      a ∈ concat g → b ∈ concat g →
      bid a ∉ selected → bid b ∉ selected →
      col a = col b → (row a < row b)%nat →
      (∃ a' b', a' ∈ concat g' ∧ b' ∈ concat g' ∧
                bid a' = bid a ∧ bid b' = bid b) ∧
      ∀ a' b', a' ∈ concat g' → b' ∈ concat g' →
               bid a' = bid a → bid b' = bid b →
               col a' = col b' ∧ (row a' < row b')%nat.
Proof.
  intros Hok Hids. exists (settledGrid selected g).
  split; [by apply gravity_spec, gridOK_fitsGrid|].
  intros a b Ha Hb Hsa Hsb Hcol Hrow. split.
  { destruct (kept_block_lands selected g a Hok Ha Hsa) as (ra & _ & _ & Ha').
    destruct (kept_block_lands selected g b Hok Hb Hsb) as (rb & _ & _ & Hb').
    by exists (moveTo ra (col a) a), (moveTo rb (col b) b). }
  intros a' b' Ha' Hb' Hida Hidb.
  destruct (settled_block_origin selected g a a' Hids Ha Ha' Hida)
    as (i & Hi & Hai & -> & ->).
  destruct (settled_block_origin selected g b b' Hids Hb Hb' Hidb)
    as (j & Hj & Hbj & -> & ->).
  split; [done|]. rewrite <- Hcol in Hbj.
  assert (j < i)%nat; [|unfold GRID_ROWS in *; lia].
  destruct (decide (j < i)%nat) as [|Hge]; [done|]. exfalso.
  destruct (decide (i = j)) as [->|Hne].
  - rewrite Hai in Hbj. injection Hbj as ->. lia.
  - pose proof (sorted_lookup_le _ i j a b
                  (sortByRowDesc_sorted _) Hai Hbj). lia.
Qed.

Lemma gravity_keeps_column_order_witness :
  ∃ g', gravity ["g"; "h"] exampleGrid = Some g' ∧
    ∀ a b,
      a ∈ concat exampleGrid → b ∈ concat exampleGrid →
      bid a ∉ ["g"; "h"] → bid b ∉ ["g"; "h"] →
      col a = col b → (row a < row b)%nat →
      (∃ a' b', a' ∈ concat g' ∧ b' ∈ concat g' ∧
                bid a' = bid a ∧ bid b' = bid b) ∧
      ∀ a' b', a' ∈ concat g' → b' ∈ concat g' →
               bid a' = bid a → bid b' = bid b →
               col a' = col b' ∧ (row a' < row b')%nat.
Proof.
  apply (gravity_keeps_column_order ["g"; "h"] exampleGrid).
  - apply (bool_decide_unpack _). by vm_compute.
  - apply (bool_decide_unpack _). by vm_compute.
Defined.

(** C5.  When the selected tiles sum to more than the target,
    [evaluateSelection] empties the selection and changes nothing else;
    when they sum to less, it changes nothing. *)
Theorem overflow_clears_selection_only (ut : Q) (rnd : RowDraw) (st : State) :
  (currentSum (grid st) (selectedIds st) > target st →
   ∃ st', evaluateSelection ut rnd st = Some st' ∧
     selectedIds st' = [] ∧
     grid st' = grid st ∧ score st' = score st ∧ target st' = target st ∧
     level st' = level st ∧ gameState st' = gameState st ∧
     mode st' = mode st ∧ timeLeft st' = timeLeft st ∧
     isPaused st' = isPaused st ∧ highScore st' = highScore st) ∧
  (currentSum (grid st) (selectedIds st) < target st →
   evaluateSelection ut rnd st = Some st).
Proof.
  unfold evaluateSelection. cbv zeta. split; intros Hsum.
  - rewrite decide_False by lia. rewrite decide_True by done.
    eexists. split; [done|]. by repeat split.
  - rewrite decide_False by lia. by rewrite decide_False by lia.
Qed.

(** The example of the specification: the selection sums to 15, the
    target is 10; and a selection that sums to 3. *)
Lemma overflow_clears_selection_only_witness :
  (∃ st', evaluateSelection (1 # 2) exampleDraw
            (exampleStateAt ModeClassic ["h"; "g"] 10 40) = Some st' ∧
     selectedIds st' = [] ∧ grid st' = exampleGrid ∧ score st' = 40) ∧
  evaluateSelection (1 # 2) exampleDraw
    (exampleStateAt ModeClassic ["a"] 10 40)
  = Some (exampleStateAt ModeClassic ["a"] 10 40).
Proof.
  split.
  - destruct (proj1 (overflow_clears_selection_only (1 # 2) exampleDraw
                       (exampleStateAt ModeClassic ["h"; "g"] 10 40)))
      as (st' & H1 & H2 & H3 & H4 & _); [reflexivity|].
    exists st'. repeat split; assumption.
  - apply (proj2 (overflow_clears_selection_only (1 # 2) exampleDraw
                    (exampleStateAt ModeClassic ["a"] 10 40))).
    reflexivity.
Defined.

(** C4.  The level check of the sum effect reads the [score] of the
    render that the effect belongs to, that is the score before the
    award.  At score 490 and level 1 a match worth 20 takes the score to
    510, past [level * 500], and the level stays 1. *)
Theorem level_check_reads_score_before_award :
  ∃ st', evaluateSelection (1 # 2) exampleDraw
           (exampleStateAt ModeClassic ["a"; "g"] 10 490) = Some st' ∧
    score st' = 510 ∧ score st' > 1 * 500 ∧ level st' = 1.
Proof. eexists. split; [by vm_compute|]. by vm_compute. Qed.

(** On every match the level after is decided by the score before. *)
Lemma level_after_match (ut : Q) (rnd : RowDraw) (st : State) :
  matched st → gridOK (grid st) →
  ∃ st', evaluateSelection ut rnd st = Some st' ∧
    level st' = if decide (score st > level st * 500)
                then level st + 1 else level st.
Proof.
  intros Hm Hok.
  destruct (evaluateSelection_match ut rnd st Hm Hok) as (g' & _ & ->).
  by eexists.
Qed.

(** ** The timer *)

Lemma timerTick_running (rnd : RowDraw) (st : State) :
  gameState st = Playing → mode st = ModeTime → isPaused st = false →
  timerTick rnd st =
  if decide (timeLeft st <= 1) then addRow rnd st
  else Some (setTimeLeft (timeLeft st - 1) st).
Proof.
  intros Hg Hm Hp. unfold timerTick, timerRunning.
  by rewrite Hg, Hm, Hp.
Qed.

Lemma timerTicks_count_down (rnds : list RowDraw) :
  ∀ st, gameState st = Playing → mode st = ModeTime → isPaused st = false →
        Z.of_nat (length rnds) < timeLeft st →
        timerTicks rnds st
        = Some (setTimeLeft (timeLeft st - Z.of_nat (length rnds)) st).
Proof.
  induction rnds as [|rnd rnds IH]; intros st Hg Hm Hp Hk.
  - simpl. rewrite Z.sub_0_r. by destruct st.
  - cbn [timerTicks]. rewrite timerTick_running by done.
    rewrite decide_False by (simpl length in Hk; lia).
    rewrite bind_Some_l, IH; try done.
    + f_equal. destruct st. unfold setTimeLeft. simpl. f_equal.
      rewrite Nat2Z.inj_succ. lia.
    + simpl in *. lia.
Qed.

(** C6.  In time mode, while the game is playing and not paused, a tick
    of the timer takes one second off [timeLeft] as long as that leaves a
    positive time; the tick that would bring it to zero calls [addRow]
    once and sets the timer to [TIME_LIMIT], which is 10.  Hence, from a
    full timer, nine ticks count down to 1 and the tenth inserts one
    row. *)
Theorem timer_inserts_row_at_zero (rnd : RowDraw) (st : State) :
  gameState st = Playing → mode st = ModeTime → isPaused st = false →
  (GRID_ROWS ≤ length (grid st))%nat →
  (0 < timeLeft st - 1 →
   timerTick rnd st = Some (setTimeLeft (timeLeft st - 1) st)) ∧
  (timeLeft st - 1 <= 0 →
   ∃ g', addRowGrid rnd (grid st) = Some g' ∧
         timerTick rnd st = Some (setTimeLeft TIME_LIMIT (setGrid g' st))) ∧
  TIME_LIMIT = 10 ∧
  (timeLeft st = TIME_LIMIT →
   ∀ rnds, length rnds = 9%nat →
     timerTicks rnds st = Some (setTimeLeft 1 st) ∧
     ∃ g', addRowGrid rnd (grid st) = Some g' ∧
           timerTicks (rnds ++ [rnd]) st
           = Some (setTimeLeft TIME_LIMIT (setGrid g' st))).
Proof.
  intros Hg Hm Hp Hlen.
  destruct (addRowGrid_spec rnd (grid st) Hlen) as (g' & Hg' & _).
  assert (∀ t, addRow rnd (setTimeLeft t st)
               = Some (setTimeLeft TIME_LIMIT (setGrid g' st))) as Hadd.
  { intros t. unfold addRow. simpl. by rewrite Hg'. }
  split; [|split; [|split; [done|]]].
  - intros Ht. rewrite timerTick_running by done.
    by rewrite decide_False by lia.
  - intros Ht. exists g'. split; [done|].
    rewrite timerTick_running by done. rewrite decide_True by lia.
    unfold addRow. by rewrite Hg'.
  - intros Hfull rnds Hn.
    assert (timerTicks rnds st = Some (setTimeLeft 1 st)) as Hdown.
    { rewrite timerTicks_count_down; try done.
      - rewrite Hn, Hfull. done.
      - rewrite Hn, Hfull. done. }
    split; [done|]. exists g'. split; [done|].
    assert (∀ l s, timerTicks (l ++ [rnd]) s
                   = timerTicks l s ≫= timerTick rnd) as Happ.
    { induction l as [|x l IH]; intros s; simpl.
      - by destruct (timerTick rnd s).
      - destruct (timerTick x s); [apply IH|done]. }
    rewrite Happ, Hdown, bind_Some_l.
    rewrite timerTick_running by done.
    rewrite decide_True by (simpl; lia). apply Hadd.
Qed.

Lemma timer_inserts_row_at_zero_witness :
  (0 < 10 - 1 →
   timerTick exampleDraw (exampleState ModeTime [] 12)
   = Some (setTimeLeft (10 - 1) (exampleState ModeTime [] 12))) ∧
  (10 - 1 <= 0 →
   ∃ g', addRowGrid exampleDraw exampleGrid = Some g' ∧
         timerTick exampleDraw (exampleState ModeTime [] 12)
         = Some (setTimeLeft TIME_LIMIT
                   (setGrid g' (exampleState ModeTime [] 12)))) ∧
  TIME_LIMIT = 10 ∧
  (10 = TIME_LIMIT →
   ∀ rnds, length rnds = 9%nat →
     timerTicks rnds (exampleState ModeTime [] 12)
     = Some (setTimeLeft 1 (exampleState ModeTime [] 12)) ∧
     ∃ g', addRowGrid exampleDraw exampleGrid = Some g' ∧
           timerTicks (rnds ++ [exampleDraw]) (exampleState ModeTime [] 12)
           = Some (setTimeLeft TIME_LIMIT
                     (setGrid g' (exampleState ModeTime [] 12)))).
Proof.
  apply (timer_inserts_row_at_zero exampleDraw (exampleState ModeTime [] 12)).
  - reflexivity.
  - reflexivity.
  - reflexivity.
  - simpl. unfold GRID_ROWS. lia.
Defined.

(** ** Row insertion and the end of the game *)

Lemma gameOverEffect_top (st : State) :
  gameState st = Playing → topRowOccupied (grid st) = true →
  gameOverEffect st = gameOver st ∧ gameState (gameOverEffect st) = GameOver.
Proof.
  intros Hg Htop. unfold gameOverEffect.
  rewrite decide_True by done. by rewrite Htop.
Qed.

Lemma addRowGrid_ids (rnd : RowDraw) (g : Grid) :
  length g = GRID_ROWS →
  ∃ g', addRowGrid rnd g = Some g' ∧
    ids g' = ids (drop 1 g) ++ freshIds rnd.
Proof.
  intros Hlen. unfold GRID_ROWS in Hlen.
  destruct g as [|r0 [|r1 [|r2 [|r3 [|r4 [|r5 [|r6 [|r7 [|r8 [|r9 [|? ?]]]]]]]]]]];
    try done.
  exists [shiftRowTo 0 r1; shiftRowTo 1 r2; shiftRowTo 2 r3; shiftRowTo 3 r4;
          shiftRowTo 4 r5; shiftRowTo 5 r6; shiftRowTo 6 r7; shiftRowTo 7 r8;
          shiftRowTo 8 r9; createRow rnd 9].
  split; [reflexivity|].
  unfold ids. cbn [concat drop]. rewrite !fmap_app, createRow_ids.
  unfold shiftRowTo. rewrite <- !list_fmap_compose.
  rewrite !app_nil_r, <- !app_assoc. reflexivity.
Qed.

Lemma shiftRowTo_moved (r : nat) (blocks : list Block) :
  Forall2 (movedToRow r) blocks (shiftRowTo r blocks).
Proof.
  unfold shiftRowTo. apply Forall2_fmap_r, Forall_Forall2_diag, Forall_forall.
  intros b _. by repeat split.
Qed.

(** C3.  [addRow] moves the tiles of every row [r + 1] to row [r]: the
    new row [r] holds the same tiles in the same order, each with its id,
    value and column and with the row field [r].  It puts a freshly
    generated full row, with the row field [GRID_ROWS - 1], at the bottom
    and keeps nothing of the old row 0: every tile of the new grid comes
    from an old row below the top or is fresh, and the ids of the new
    grid are those of the old rows below the top followed by the fresh
    ones.  The top row holds a tile after the shift exactly when the old
    row 1 did, and then the game-over effect of a playing game moves to
    the [gameover] phase. *)
Theorem addRow_shifts_rows_up (rnd : RowDraw) (st : State) :
  length (grid st) = GRID_ROWS →
  ∃ st', addRow rnd st = Some st' ∧
    length (grid st') = GRID_ROWS ∧
    (∀ r blocks, (r < GRID_ROWS - 1)%nat → grid st !! S r = Some blocks →
                 grid st' !! r = Some (withRow r <$> blocks)) ∧
    (∀ r blocks, (r < GRID_ROWS - 1)%nat → grid st !! S r = Some blocks →
                 ∃ blocks', grid st' !! r = Some blocks' ∧
                            Forall2 (movedToRow r) blocks blocks') ∧
    grid st' !! (GRID_ROWS - 1)%nat = Some (createRow rnd (GRID_ROWS - 1)) ∧
    col <$> createRow rnd (GRID_ROWS - 1) = seq 0 GRID_COLS ∧
    Forall (λ b, row b = (GRID_ROWS - 1)%nat)
           (createRow rnd (GRID_ROWS - 1)) ∧
    (∀ b', b' ∈ concat (grid st') →
           (∃ r blocks b, (r < GRID_ROWS - 1)%nat ∧
                          grid st !! S r = Some blocks ∧ b ∈ blocks ∧
                          b' = withRow r b ∧ movedToRow r b b')
           ∨ b' ∈ createRow rnd (GRID_ROWS - 1)) ∧
    ids (grid st') = ids (drop 1 (grid st)) ++ freshIds rnd ∧
    (∀ blocks b, grid st !! 0%nat = Some blocks → b ∈ blocks →
                 bid b ∉ ids (drop 1 (grid st)) → bid b ∉ freshIds rnd →
                 bid b ∉ ids (grid st')) ∧
    timeLeft st' = TIME_LIMIT ∧
    (topRowOccupied (grid st') = true ↔
     ∃ blocks b, grid st !! 1%nat = Some blocks ∧ b ∈ blocks) ∧
    (gameState st = Playing → topRowOccupied (grid st') = true →
     gameState (gameOverEffect st') = GameOver).
Proof.
  intros Hlen.
  destruct (addRowGrid_spec rnd (grid st)) as (g' & Hg' & Hlen' & Hup & Hnew & _);
    [lia|].
  destruct (addRowGrid_ids rnd (grid st) Hlen) as (g2 & Hg2 & Hids).
  rewrite Hg' in Hg2. injection Hg2 as <-.
  unfold addRow. rewrite Hg', bind_Some_l. eexists. split; [done|].
  cbn [grid timeLeft setTimeLeft setGrid].
  split; [lia|].
  split. { intros r blocks Hr Hold. rewrite Hup by done. by rewrite Hold. }
  split.
  { intros r blocks Hr Hold. exists (shiftRowTo r blocks).
    split; [|apply shiftRowTo_moved]. rewrite Hup by done. by rewrite Hold. }
  split; [done|].
  split; [apply createRow_cols|].
  split.
  { apply Forall_forall. by intros b (c & _ & ->)%elem_of_createRow. }
  split.
  { intros b' Hb'.
    destruct (proj1 (elem_of_addRowGrid rnd (grid st) g' b' Hlen Hg') Hb')
      as [(r & blocks & b & Hr & Hold & Hb & ->)|Hnewb]; [left|by right].
    exists r, blocks, b. by repeat split. }
  split; [done|].
  split.
  { intros blocks b _ _ Hlow Hfresh. rewrite Hids.
    by intros [?|?]%elem_of_app. }
  split; [done|].
  split.
  - specialize (Hup 0%nat). unfold GRID_ROWS in Hup.
    destruct g' as [|row0 g']; [done|]. simpl in Hup.
    destruct (grid st !! 1%nat) as [blocks|] eqn:Hone.
    + assert (row0 = shiftRowTo 0 blocks) as ->.
      { assert (Some row0 = Some (shiftRowTo 0 blocks)) as Heq
          by (apply Hup; lia).
        by injection Heq. }
      destruct blocks as [|b blocks]; simpl.
      * split; [done|]. by intros (? & ? & [= <-] & ?%elem_of_nil).
      * split; [|done]. intros _. exists (b :: blocks), b.
        split; [done|by left].
    + assert (Some row0 = None) by (apply Hup; lia). done.
  - intros Hplay Htop. by apply gameOverEffect_top.
Qed.

Lemma addRow_shifts_rows_up_witness :
  ∃ st', addRow exampleDraw exampleFullState = Some st' ∧
    length (grid st') = GRID_ROWS ∧
    (∀ r blocks, (r < GRID_ROWS - 1)%nat →
                 exampleFullGrid !! S r = Some blocks →
                 grid st' !! r = Some (withRow r <$> blocks)) ∧
    (∀ r blocks, (r < GRID_ROWS - 1)%nat →
                 exampleFullGrid !! S r = Some blocks →
                 ∃ blocks', grid st' !! r = Some blocks' ∧
                            Forall2 (movedToRow r) blocks blocks') ∧
    grid st' !! (GRID_ROWS - 1)%nat
    = Some (createRow exampleDraw (GRID_ROWS - 1)) ∧
    col <$> createRow exampleDraw (GRID_ROWS - 1) = seq 0 GRID_COLS ∧
    Forall (λ b, row b = (GRID_ROWS - 1)%nat)
           (createRow exampleDraw (GRID_ROWS - 1)) ∧
    (∀ b', b' ∈ concat (grid st') →
           (∃ r blocks b, (r < GRID_ROWS - 1)%nat ∧
                          exampleFullGrid !! S r = Some blocks ∧ b ∈ blocks ∧
                          b' = withRow r b ∧ movedToRow r b b')
           ∨ b' ∈ createRow exampleDraw (GRID_ROWS - 1)) ∧
    ids (grid st') = ids (drop 1 exampleFullGrid) ++ freshIds exampleDraw ∧
    (∀ blocks b, exampleFullGrid !! 0%nat = Some blocks → b ∈ blocks →
                 bid b ∉ ids (drop 1 exampleFullGrid) →
                 bid b ∉ freshIds exampleDraw →
                 bid b ∉ ids (grid st')) ∧
    timeLeft st' = TIME_LIMIT ∧
    (topRowOccupied (grid st') = true ↔
     ∃ blocks b, exampleFullGrid !! 1%nat = Some blocks ∧ b ∈ blocks) ∧
    (Playing = Playing → topRowOccupied (grid st') = true →
     gameState (gameOverEffect st') = GameOver).
Proof.
  apply (addRow_shifts_rows_up exampleDraw exampleFullState).
  reflexivity.
Defined.

(** [addRow] on the game whose first column is full: the tile [t1] of
    row 1 becomes the tile of row 0, the tile [t0] of the old row 0 is
    gone, the fresh row is at the bottom, and the game-over effect ends
    the game. *)
Example addRow_on_full_column :
  ∃ st', addRow exampleDraw exampleFullState = Some st' ∧
    grid st' !! 0%nat = Some [tile "t1" 6 0 0] ∧
    grid st' !! 8%nat = Some [tile "g" 7 8 0; tile "h" 8 8 1; tile "i" 9 8 2;
                              tile "j" 1 8 3; tile "k" 2 8 4; tile "l" 3 8 5] ∧
    grid st' !! 9%nat = Some [tile "n0" 5 9 0; tile "n1" 5 9 1;
                              tile "n2" 5 9 2; tile "n3" 5 9 3;
                              tile "n4" 5 9 4; tile "n5" 5 9 5] ∧
    ("t0" ∈ ids (grid exampleFullState)) ∧ ("t0" ∉ ids (grid st')) ∧
    length (concat (grid st')) = 25%nat ∧
    timeLeft st' = TIME_LIMIT ∧
    topRowOccupied (grid st') = true ∧
    gameOverEffect st' = gameOver st' ∧
    gameState (gameOverEffect st') = GameOver.
Proof.
  eexists. split; [vm_compute; reflexivity|].
  do 3 (split; [vm_compute; reflexivity|]).
  do 2 (split; [apply (bool_decide_unpack _); vm_compute; reflexivity|]).
  repeat split; vm_compute; reflexivity.
Qed.

(** ** The operations keep the grid well formed *)

Lemma rowOK_nil (r : nat) : rowOK r [].
Proof. split; constructor. Qed.

Lemma initialGrid_OK (start : nat → RowDraw) :
  unitStart start → gridOK (initialGrid start).
Proof.
  unfold unitStart. intros Hstart. rewrite Forall_forall in Hstart.
  assert (∀ r, (6 ≤ r < 10)%nat → rowOK r (createRow (start r) r)) as Hrow.
  { intros r Hr. apply createRow_OK, Hstart, elem_of_seq.
    unfold GRID_ROWS, INITIAL_ROWS. lia. }
  unfold gridOK, initialGrid. cbn.
  repeat (apply Forall2_cons; split; [first [apply rowOK_nil|apply Hrow; lia]|]).
  apply Forall2_nil_2.
Qed.

Lemma match_keeps_gridOK (ut : Q) (rnd : RowDraw) (st : State) :
  unitRow rnd → gridOK (grid st) → matched st →
  ∃ st', evaluateSelection ut rnd st = Some st' ∧ gridOK (grid st').
Proof.
  intros Hrnd Hok Hm.
  destruct (evaluateSelection_match ut rnd st Hm Hok) as (g' & Hg' & ->).
  eexists. split; [done|]. simpl.
  assert (gridOK (settledGrid (selectedIds st) (grid st))) as Hs.
  { apply settledGrid_OK. by destruct (gridOK_tilesOK _ Hok). }
  unfold gridAfterMatch in Hg'. destruct (mode st).
  - destruct (addRowGrid_OK rnd _ Hrnd Hs) as (g2 & Hg2 & Hok2). congruence.
  - by injection Hg' as <-.
Qed.

(** C8.  Game start, row insertion and a successful evaluation leave a
    well-formed grid, in which no two tiles share a position and every
    value is between 1 and 9.  The draws are draws of [Math.random()]. *)
Theorem operations_keep_grid_invariant (m : GameMode) (start : nat → RowDraw)
    (ut : Q) (rnd : RowDraw) (st : State) :
  unitStart start → unitRow rnd → gridOK (grid st) →
  (gridOK (grid (startGame m start ut st)) ∧
   tilesOK (grid (startGame m start ut st))) ∧
  (∃ st', addRow rnd st = Some st' ∧ gridOK (grid st') ∧ tilesOK (grid st')) ∧
  (matched st →
   ∃ st', evaluateSelection ut rnd st = Some st' ∧
          gridOK (grid st') ∧ tilesOK (grid st')).
Proof.
  intros Hstart Hrnd Hok. split; [|split].
  - pose proof (initialGrid_OK start Hstart) as H.
    split; [done|by apply gridOK_tilesOK].
  - destruct (addRowGrid_OK rnd (grid st) Hrnd Hok) as (g' & Hg' & Hok').
    unfold addRow. rewrite Hg', bind_Some_l. eexists. split; [done|].
    split; [done|by apply gridOK_tilesOK].
  - intros Hm.
    destruct (match_keeps_gridOK ut rnd st Hrnd Hok Hm) as (st' & Hst' & Hok').
    exists st'. split; [done|]. split; [done|by apply gridOK_tilesOK].
Qed.

Lemma operations_keep_grid_invariant_witness :
  (gridOK (grid (startGame ModeTime (λ _, exampleDraw) (1 # 2)
                   (exampleState ModeClassic ["a"; "g"] 10))) ∧
   tilesOK (grid (startGame ModeTime (λ _, exampleDraw) (1 # 2)
                    (exampleState ModeClassic ["a"; "g"] 10)))) ∧
  (∃ st', addRow exampleDraw (exampleState ModeClassic ["a"; "g"] 10)
          = Some st' ∧ gridOK (grid st') ∧ tilesOK (grid st')) ∧
  (matched (exampleState ModeClassic ["a"; "g"] 10) →
   ∃ st', evaluateSelection (1 # 2) exampleDraw
            (exampleState ModeClassic ["a"; "g"] 10) = Some st' ∧
          gridOK (grid st') ∧ tilesOK (grid st')).
Proof.
  apply (operations_keep_grid_invariant ModeTime (λ _, exampleDraw) (1 # 2)
           exampleDraw (exampleState ModeClassic ["a"; "g"] 10)).
  - apply (bool_decide_unpack _). by vm_compute.
  - apply (bool_decide_unpack _). by vm_compute.
  - apply (bool_decide_unpack _). by vm_compute.
Defined.

Lemma currentSum_nil (g : Grid) : currentSum g [] = 0.
Proof.
  unfold currentSum. generalize 0. induction (concat g) as [|b l IH]; [done|].
  intros acc. cbn [foldl]. rewrite decide_False by apply not_elem_of_nil.
  apply IH.
Qed.

Lemma not_matched_nil (st : State) : selectedIds st = [] → ¬ matched st.
Proof.
  intros Hnil [Hsum Hpos]. rewrite Hnil, currentSum_nil in Hsum. lia.
Qed.

Lemma gameOverEffect_done (st : State) :
  gameOverEffect st = st → gameState st = Playing →
  topRowOccupied (grid st) = false.
Proof.
  unfold gameOverEffect. intros Heff Hplay.
  rewrite decide_True in Heff by done.
  destruct (topRowOccupied (grid st)); [|done].
  apply (f_equal gameState) in Heff. simpl in Heff. congruence.
Qed.

Lemma addRowGrid_keeps_ids (rnd : RowDraw) (g g' : Grid) (i : string) :
  gridOK g → topRowOccupied g = false → addRowGrid rnd g = Some g' →
  i ∈ ids g → i ∈ ids g'.
Proof.
  intros Hok Htop Hg' (b & Hb & <-)%elem_of_ids.
  pose proof Hok as [Hlen _]%gridOK_lookup.
  apply elem_of_grid in Hb as (r & blocks & Hr & Hb).
  destruct r as [|r].
  { destruct g as [|row0 g]; [done|]. injection Hr as ->.
    destruct blocks; [by apply elem_of_nil in Hb|done]. }
  apply elem_of_ids. exists (withRow r b). split; [|done].
  eapply elem_of_addRowGrid; [done|exact Hg'|]. left.
  exists r, blocks, b. apply lookup_lt_Some in Hr as Hlt.
  split; [lia|done].
Qed.

Lemma toggleBlock_selection (b : Block) (st : State) (i : string) :
  i ∈ selectedIds (toggleBlock b st) → i ∈ selectedIds st ∨ i = bid b.
Proof.
  unfold toggleBlock. destruct (decide (gameState st ≠ Playing)); [by left|].
  destruct (isPaused st); [by left|]. simpl.
  destruct (decide (bid b ∈ selectedIds st)).
  - intros [_ ?]%list_elem_of_filter. by left.
  - intros [?|Hs%list_elem_of_singleton]%elem_of_app; [by left|by right].
Qed.

Lemma toggleBlock_grid (b : Block) (st : State) :
  grid (toggleBlock b st) = grid st.
Proof.
  unfold toggleBlock. destruct (decide (gameState st ≠ Playing)); [done|].
  by destruct (isPaused st).
Qed.

Lemma evaluateSelection_cases (ut : Q) (rnd : RowDraw) (st st' : State) :
  evaluateSelection ut rnd st = Some st' →
  (matched st ∧ selectedIds st' = []) ∨
  (currentSum (grid st) (selectedIds st) > target st ∧
   st' = setSelectedIds [] st) ∨
  (¬ matched st ∧ ¬ currentSum (grid st) (selectedIds st) > target st ∧
   st' = st).
Proof.
  unfold evaluateSelection. cbv zeta. intros Heval.
  destruct (decide (_ ∧ _)) as [Hm|Hm].
  - left. split; [done|].
    destruct (gravity _ _) as [g1|]; [|done]. rewrite bind_Some_l in Heval.
    destruct (match mode st with ModeClassic => _ | ModeTime => _ end);
      [|done].
    rewrite bind_Some_l in Heval. by injection Heval as <-.
  - destruct (decide (_ > _)); injection Heval as <-; [right; by left|].
    right. by right.
Qed.

Lemma toggleBlock_frame (b : Block) (st : State) :
  gameState (toggleBlock b st) = gameState st ∧
  level (toggleBlock b st) = level st ∧
  mode (toggleBlock b st) = mode st.
Proof.
  unfold toggleBlock. destruct (decide (gameState st ≠ Playing)); [done|].
  by destruct (isPaused st).
Qed.

Lemma toggleBlock_NoDup (b : Block) (st : State) :
  NoDup (selectedIds st) → NoDup (selectedIds (toggleBlock b st)).
Proof.
  intros Hnd. unfold toggleBlock.
  destruct (decide (gameState st ≠ Playing)); [done|].
  destruct (isPaused st); [done|]. simpl.
  destruct (decide (bid b ∈ selectedIds st)) as [|Hnew].
  - by apply NoDup_filter.
  - apply NoDup_app. split; [done|]. split; [|apply NoDup_singleton].
    intros i Hi ->%list_elem_of_singleton. done.
Qed.

Lemma toggleBlock_changes (b : Block) (st : State) :
  toggleBlock b st = st ∨
  (gameState st = Playing ∧ ∃ sel, toggleBlock b st = setSelectedIds sel st).
Proof.
  unfold toggleBlock.
  destruct (decide (gameState st ≠ Playing)) as [|Hplay]; [by left|].
  destruct (isPaused st); [by left|]. right. split; [|by eexists].
  by destruct (decide (gameState st = Playing)).
Qed.

Lemma timerTick_cases (rnd : RowDraw) (st st' : State) :
  timerTick rnd st = Some st' →
  st' = st ∨ st' = setTimeLeft (timeLeft st - 1) st ∨
  (gameState st = Playing ∧ mode st = ModeTime ∧
   ∃ g', addRowGrid rnd (grid st) = Some g' ∧
         st' = setTimeLeft TIME_LIMIT (setGrid g' st)).
Proof.
  unfold timerTick. intros Htick.
  destruct (timerRunning st) eqn:Hrun; [|left; by injection Htick].
  destruct (decide (timeLeft st <= 1)); [|right; left; by injection Htick].
  right. right. unfold timerRunning in Hrun.
  apply andb_prop in Hrun
    as [[Hplay%bool_decide_eq_true Htime%bool_decide_eq_true]%andb_prop _].
  split; [done|]. split; [done|]. unfold addRow in Htick.
  destruct (addRowGrid rnd (grid st)) as [g'|]; [|done].
  exists g'. split; [done|]. by injection Htick.
Qed.

Lemma gridReady_matched (st : State) :
  gridReady st → matched st → gridOK (grid st).
Proof.
  intros [[Hnil _]|Hok] [Hsum Hpos]; [|done].
  rewrite Hnil in Hsum. unfold currentSum in Hsum. simpl in Hsum. lia.
Qed.

Lemma step_stateOK (st st' : State) : step st st' → stateOK st → stateOK st'.
Proof.
  intros Hstep (Hsel & Hnd & Hgrid & Hlevel & Htop).
  destruct Hstep as [m start ut st _ Hstart _|b st _ Heff Hb|st _|st _ _|st _
                    |rnd st st' Heff Hrnd Htick|st|ut rnd st st' _ Hrnd Heval].
  - (* start *)
    split; [by intros i ?%elem_of_nil|]. split; [apply NoDup_nil_2|].
    split; [right; by apply initialGrid_OK|]. split; [done|].
    by intros ?%not_matched_nil.
  - (* toggle *)
    destruct (toggleBlock_frame b st) as (Hg & Hl & Hm).
    split; [|split; [by apply toggleBlock_NoDup|]].
    { intros i [Hi| ->]%toggleBlock_selection; rewrite toggleBlock_grid.
      - by apply Hsel.
      - apply elem_of_ids. by exists b. }
    split; [unfold gridReady; by rewrite toggleBlock_grid, Hg|].
    split; [by rewrite Hl|].
    destruct (toggleBlock_changes b st) as [->|[Hplay [sel ->]]]; [done|].
    intros _ _. simpl. by apply gameOverEffect_done.
  - (* pause *) done.
  - (* resume *) done.
  - (* menu *)
    split; [done|]. split; [done|]. split; [|done].
    destruct Hgrid as [[Hnil _]|Hok]; [by left|by right].
  - (* tick *)
    apply timerTick_cases in Htick
      as [->|[->|(Hplay & Htime & g' & Hg' & ->)]]; [done| |].
    { split; [done|]. split; [done|]. split; [done|]. done. }
    assert (gridOK (grid st)) as Hok.
    { destruct Hgrid as [[Hnil _]|Hok]; [by rewrite Hnil in Hg'|done]. }
    split; [|split; [done|split; [|split; [done|]]]].
    + intros i Hi. simpl in *.
      eapply addRowGrid_keeps_ids; [done| |done|by apply Hsel].
      by apply gameOverEffect_done.
    + right. simpl.
      destruct (addRowGrid_OK rnd (grid st) Hrnd Hok) as (g2 & Hg2 & Hok2).
      congruence.
    + intros _ Hclassic. simpl in Hclassic. congruence.
  - (* game-over effect *)
    unfold gameOverEffect. destruct (decide _) as [Hplay|]; [|done].
    destruct (topRowOccupied (grid st)); [|done].
    split; [done|]. split; [done|]. split; [|done].
    destruct Hgrid as [[_ Hmenu]|Hok]; [congruence|by right].
  - (* sum effect *)
    apply evaluateSelection_cases in Heval as Hcases.
    destruct Hcases as [[Hm Hnil]|[[_ ->]|(_ & _ & ->)]]; [| |done].
    + pose proof (gridReady_matched st Hgrid Hm) as Hok.
      destruct (evaluateSelection_match ut rnd st Hm Hok) as (g' & _ & Hst').
      destruct (match_keeps_gridOK ut rnd st Hrnd Hok Hm) as (st2 & Hst2 & Hok2).
      assert (st2 = st') as -> by congruence.
      split; [intros i; rewrite Hnil; by intros ?%elem_of_nil|].
      split; [rewrite Hnil; apply NoDup_nil_2|].
      split; [by right|]. split; [|by intros ?%not_matched_nil].
      rewrite Heval in Hst'. injection Hst' as ->. simpl.
      destruct (decide _); lia.
    + split; [by intros i ?%elem_of_nil|]. split; [apply NoDup_nil_2|].
      split; [done|]. split; [done|]. by intros ?%not_matched_nil.
Qed.

Lemma reachable_stateOK (st : State) : reachable st → stateOK st.
Proof.
  unfold reachable. intros Hreach.
  assert (stateOK initialState) as Hinit.
  { split; [by intros i ?%elem_of_nil|]. split; [apply NoDup_nil_2|].
    split; [by left|]. split; [done|]. by intros ?%not_matched_nil. }
  revert Hinit. induction Hreach as [|s1 s2 s3 Hstep _ IH]; [done|].
  intros H1. by apply IH, (step_stateOK s1).
Qed.

(** In every reachable state with a match the grid is well formed and, in
    classic mode, its top row is free: what the statements about a match
    ask of the state holds whenever the game gets there. *)
Lemma reachable_match_ready (st : State) :
  reachable st → matched st →
  gridOK (grid st) ∧
  (mode st = ModeClassic → topRowOccupied (grid st) = false) ∧
  NoDup (selectedIds st) ∧
  (∀ i, i ∈ selectedIds st → i ∈ ids (grid st)).
Proof.
  intros (Hsel & Hnd & Hgrid & _ & Htop)%reachable_stateOK Hm.
  split; [by apply gridReady_matched|]. split; [by apply Htop|done].
Qed.

(** The effects and the timer do not throw in a reachable state. *)
Lemma reachable_no_throw (ut : Q) (rnd : RowDraw) (st : State) :
  reachable st →
  is_Some (evaluateSelection ut rnd st) ∧
  (gameState st ≠ Menu → is_Some (timerTick rnd st)).
Proof.
  intros (_ & _ & Hgrid & _)%reachable_stateOK. split.
  - destruct (decide (matched st)) as [Hm|Hm].
    + pose proof (gridReady_matched st Hgrid Hm) as Hok.
      destruct (evaluateSelection_match ut rnd st Hm Hok) as (g' & _ & ->).
      by eexists.
    + unfold evaluateSelection. cbv zeta. rewrite decide_False by exact Hm.
      by destruct (decide _).
  - intros Hmenu. unfold timerTick. destruct (timerRunning st); [|by eexists].
    destruct (decide _); [|by eexists].
    destruct Hgrid as [[_ ?]|Hok]; [done|].
    apply gridOK_lookup in Hok as [Hlen _].
    destruct (addRowGrid_spec rnd (grid st)) as (g' & Hg' & _); [lia|].
    unfold addRow. rewrite Hg'. by eexists.
Qed.

(** C7.  In every reachable state every selected id is the id of a tile
    of the grid, and [evaluateSelection] empties the selection on a match
    and on a sum above the target. *)
Theorem selection_refers_to_grid (st : State) :
  reachable st →
  (∀ i, i ∈ selectedIds st → i ∈ ids (grid st)) ∧
  (∀ ut rnd,
     matched st ∨ currentSum (grid st) (selectedIds st) > target st →
     ∃ st', evaluateSelection ut rnd st = Some st' ∧ selectedIds st' = []).
Proof.
  intros Hreach. split; [by destruct (reachable_stateOK st Hreach)|].
  intros ut rnd Hcase.
  destruct (reachable_no_throw ut rnd st Hreach) as [[st' Heval] _].
  exists st'. split; [done|].
  apply evaluateSelection_cases in Heval
    as [[_ Hnil]|[[_ ->]|(Hnm & Hno & _)]]; [done|done|].
  by destruct Hcase.
Qed.

Lemma selection_refers_to_grid_witness :
  (∀ i, i ∈ selectedIds exampleToggled → i ∈ ids (grid exampleToggled)) ∧
  (∀ ut rnd,
     matched exampleToggled
     ∨ currentSum (grid exampleToggled) (selectedIds exampleToggled)
       > target exampleToggled →
     ∃ st', evaluateSelection ut rnd exampleToggled = Some st' ∧
            selectedIds st' = []).
Proof.
  apply (selection_refers_to_grid exampleToggled).
  apply (rtc_l step initialState exampleStarted).
  - apply step_start.
    + left. reflexivity.
    + apply (bool_decide_unpack _). by vm_compute.
    + apply (bool_decide_unpack _). by vm_compute.
  - apply rtc_once. apply step_toggle.
    + discriminate.
    + reflexivity.
    + apply (bool_decide_unpack _). by vm_compute.
Defined.

(** * Further properties of the code *)

(** ** The generators *)

(** Double draws that reach every outcome of the two generators: the
    sixteenths [ceil(16 k / n) / 16], whose products with [n] are doubles
    already. *)
Lemma floor_scaled_draw_onto_10 (k : Z) :
  0 ≤ k ≤ 9 →
  unitDraw (Qmake ((8 * k + 4) / 5) 16) ∧
  Qfloor (doubleMul (Qmake ((8 * k + 4) / 5) 16) (inject_Z 10)) = k.
Proof.
  intros Hk.
  assert (Hcases : k = 0 ∨ k = 1 ∨ k = 2 ∨ k = 3 ∨ k = 4 ∨ k = 5 ∨ k = 6 ∨
                   k = 7 ∨ k = 8 ∨ k = 9) by lia.
  repeat (destruct Hcases as [->|Hcases]); try subst k;
    (split; [apply (bool_decide_unpack _); by vm_compute|by vm_compute]).
Qed.

Lemma floor_scaled_draw_onto_9 (k : Z) :
  0 ≤ k ≤ 8 →
  unitDraw (Qmake ((16 * k + 8) / 9) 16) ∧
  Qfloor (doubleMul (Qmake ((16 * k + 8) / 9) 16) (inject_Z MAX_VALUE)) = k.
Proof.
  intros Hk.
  assert (Hcases : k = 0 ∨ k = 1 ∨ k = 2 ∨ k = 3 ∨ k = 4 ∨ k = 5 ∨ k = 6 ∨
                   k = 7 ∨ k = 8) by lia.
  repeat (destruct Hcases as [->|Hcases]); try subst k;
    (split; [apply (bool_decide_unpack _); by vm_compute|by vm_compute]).
Qed.

(** The double nearest to 0.7 is below 0.7, and its exact product with 10
    is below 7; the double product rounds up to 7, so the code's target at
    level 1 is 17. *)
Example generateTarget_rounds_product :
  unitDraw (3152519739159347 # 4503599627370496) ∧
  (3152519739159347 # 4503599627370496 < 7 # 10)%Q ∧
  Qfloor ((3152519739159347 # 4503599627370496) * inject_Z 10) = 6 ∧
  generateTarget (3152519739159347 # 4503599627370496) ModeClassic 1 = 17.
Proof.
  split; [apply (bool_decide_unpack _); by vm_compute|].
  split; [by vm_compute|]. split; by vm_compute.
Qed.

(** The double nearest to 1/9 is below 1/9; its double product with 9 is
    1, so the tile value is 2. *)
Example randomValue_rounds_product :
  unitDraw (2001599834386887 # 18014398509481984) ∧
  (2001599834386887 # 18014398509481984 < 1 # 9)%Q ∧
  Qfloor ((2001599834386887 # 18014398509481984) * inject_Z MAX_VALUE) = 0 ∧
  randomValue (2001599834386887 # 18014398509481984) = 2.
Proof.
  split; [apply (bool_decide_unpack _); by vm_compute|].
  split; [by vm_compute|]. split; by vm_compute.
Qed.

(** [generateTarget] produces exactly the integers from [10 + floor(level
    / 2)] to [19 + floor(level / 2)]: every double draw at least 0 and
    below 1 gives one of them, and each of them comes from such a draw.
    The mode plays no part. *)
Theorem generateTarget_range (m : GameMode) (lvl t : Z) :
  (∃ u, unitDraw u ∧ generateTarget u m lvl = t) ↔
  10 + lvl / 2 ≤ t ≤ 19 + lvl / 2.
Proof.
  split.
  - intros (u & Hu & <-). by apply generateTarget_bounds.
  - intros Ht.
    destruct (floor_scaled_draw_onto_10 (t - 10 - lvl / 2)) as [Hu Hk];
      [lia|].
    eexists. split; [exact Hu|]. unfold generateTarget. rewrite Hk. lia.
Qed.

(** [Math.floor(Math.random() * MAX_VALUE) + 1] produces exactly the
    values 1 to 9: every double draw at least 0 and below 1 gives one of
    them, and each of them comes from such a draw. *)
Theorem randomValue_range (v : Z) :
  (∃ u, unitDraw u ∧ randomValue u = v) ↔ 1 ≤ v ≤ 9.
Proof.
  split.
  - intros (u & Hu & <-). apply (randomValue_valid u Hu).
  - intros Hv.
    destruct (floor_scaled_draw_onto_9 (v - 1)) as [Hu Hk]; [lia|].
    eexists. split; [exact Hu|]. unfold randomValue. rewrite Hk. lia.
Qed.

(** [createRow(r)] is a full row: one tile for each column 0 to 5, in
    column order, every tile on row [r] and with a value from 1 to 9. *)
Theorem createRow_full_row (rnd : RowDraw) (r : nat) :
  unitRow rnd →
  length (createRow rnd r) = GRID_COLS ∧
  col <$> createRow rnd r = seq 0 GRID_COLS ∧
  Forall (λ b, row b = r ∧ 1 ≤ value b ≤ 9) (createRow rnd r).
Proof.
  intros Hrnd. split; [|split; [apply createRow_cols|]].
  - unfold createRow. by rewrite length_fmap, length_seq.
  - destruct (createRow_OK rnd r Hrnd) as [Hall _].
    eapply Forall_impl; [exact Hall|]. intros b (? & _ & ?). done.
Qed.

Lemma createRow_full_row_witness :
  length (createRow exampleDraw 9) = GRID_COLS ∧
  col <$> createRow exampleDraw 9 = seq 0 GRID_COLS ∧
  Forall (λ b, row b = 9%nat ∧ 1 ≤ value b ≤ 9) (createRow exampleDraw 9).
Proof.
  apply (createRow_full_row exampleDraw 9).
  apply (bool_decide_unpack _). by vm_compute.
Defined.

(** ** Outside active play *)

(** While the game is not playing, or is paused, a click on a tile and a
    firing of the timer change nothing. *)
Theorem inactive_game_ignores_events (b : Block) (rnd : RowDraw) (st : State) :
  gameState st ≠ Playing ∨ isPaused st = true →
  toggleBlock b st = st ∧ timerTick rnd st = Some st.
Proof.
  unfold timerTick, timerRunning, toggleBlock. intros [Hphase|Hpause].
  - rewrite decide_True by done.
    by rewrite (bool_decide_eq_false_2 _ Hphase).
  - rewrite Hpause, andb_false_r. by destruct (decide _).
Qed.

Lemma inactive_game_ignores_events_witness :
  toggleBlock (tile "a" 3 8 0)
    (setIsPaused true (exampleState ModeTime [] 12))
  = setIsPaused true (exampleState ModeTime [] 12) ∧
  timerTick exampleDraw (setIsPaused true (exampleState ModeTime [] 12))
  = Some (setIsPaused true (exampleState ModeTime [] 12)).
Proof.
  apply (inactive_game_ignores_events (tile "a" 3 8 0) exampleDraw
           (setIsPaused true (exampleState ModeTime [] 12))).
  right. reflexivity.
Defined.

(** ** The end of the game *)

(** When a tile stands in the top row of a playing game, the game-over
    effect ends the game and latches the high score: the high score
    becomes the larger of the score and the old high score, nothing else
    changes, and in the resulting state the effect, a click on a tile and
    the timer do nothing more. *)
Theorem game_over_latches (b : Block) (rnd : RowDraw) (st : State) :
  gameState st = Playing → topRowOccupied (grid st) = true →
  gameState (gameOverEffect st) = GameOver ∧
  highScore (gameOverEffect st) = Z.max (score st) (highScore st) ∧
  grid (gameOverEffect st) = grid st ∧
  score (gameOverEffect st) = score st ∧
  selectedIds (gameOverEffect st) = selectedIds st ∧
  gameOverEffect (gameOverEffect st) = gameOverEffect st ∧
  toggleBlock b (gameOverEffect st) = gameOverEffect st ∧
  timerTick rnd (gameOverEffect st) = Some (gameOverEffect st).
Proof.
  intros Hplay Htop.
  destruct (gameOverEffect_top st Hplay Htop) as [-> _].
  split; [done|]. split.
  { unfold gameOver. simpl. destruct (Z.gtb_spec (score st) (highScore st)); lia. }
  split; [done|]. split; [done|]. split; [done|].
  split; [unfold gameOverEffect; by rewrite decide_False|].
  split; [unfold toggleBlock; by rewrite decide_True|].
  unfold timerTick, timerRunning. simpl. done.
Qed.

Lemma game_over_latches_witness :
  let st := setGrid ([tile "z" 1 0 0] :: drop 1 exampleGrid)
              (exampleStateAt ModeTime [] 12 70) in
  gameState (gameOverEffect st) = GameOver ∧
  highScore (gameOverEffect st) = Z.max 70 0 ∧
  grid (gameOverEffect st) = grid st ∧
  score (gameOverEffect st) = 70 ∧
  selectedIds (gameOverEffect st) = [] ∧
  gameOverEffect (gameOverEffect st) = gameOverEffect st ∧
  toggleBlock (tile "a" 3 8 0) (gameOverEffect st) = gameOverEffect st ∧
  timerTick exampleDraw (gameOverEffect st) = Some (gameOverEffect st).
Proof.
  apply (game_over_latches (tile "a" 3 8 0) exampleDraw
           (setGrid ([tile "z" 1 0 0] :: drop 1 exampleGrid)
              (exampleStateAt ModeTime [] 12 70))).
  - reflexivity.
  - reflexivity.
Defined.

Lemma gameOverEffect_facts (st : State) :
  (gameOverEffect st ≠ st ↔
   gameState st = Playing ∧ topRowOccupied (grid st) = true) ∧
  grid (gameOverEffect st) = grid st ∧
  selectedIds (gameOverEffect st) = selectedIds st ∧
  score (gameOverEffect st) = score st ∧
  level (gameOverEffect st) = level st ∧
  highScore st ≤ highScore (gameOverEffect st).
Proof.
  unfold gameOverEffect.
  destruct (decide (gameState st = Playing)) as [Hplay|Hnot].
  - destruct (topRowOccupied (grid st)) eqn:Htop.
    + split; [|repeat split; simpl; try done].
      * split; [done|]. intros _ Heq.
        apply (f_equal gameState) in Heq. simpl in Heq. congruence.
      * destruct (Z.gtb_spec (score st) (highScore st)); lia.
    + split; [|repeat split; simpl; try done; lia].
      split; [done|]. by intros [_ ?].
  - split; [|repeat split; simpl; try done; lia].
    split; [done|]. by intros [? _].
Qed.

(** The game-over effect changes a state only in that case: it changes
    nothing unless the game is playing with a tile in the top row, and it
    never touches the grid, the selection, the score or the level. *)
Theorem gameOverEffect_only_at_top (st : State) :
  (gameOverEffect st ≠ st ↔
   gameState st = Playing ∧ topRowOccupied (grid st) = true) ∧
  grid (gameOverEffect st) = grid st ∧
  selectedIds (gameOverEffect st) = selectedIds st ∧
  score (gameOverEffect st) = score st ∧
  level (gameOverEffect st) = level st ∧
  highScore st ≤ highScore (gameOverEffect st).
Proof. apply gameOverEffect_facts. Qed.

(** ** The start of a game *)

(** [startGame] gives a grid of ten rows whose upper six are empty and
    whose lower four are full rows, 24 tiles in all; score 0, level 1, a
    full timer, no selection, and the high score of before.  No effect is
    pending in that state: the game-over effect and the sum effect leave
    it as it is. *)
Theorem startGame_fresh_game (m : GameMode) (start : nat → RowDraw) (ut : Q)
    (st : State) :
  let st0 := startGame m start ut st in
  length (grid st0) = GRID_ROWS ∧
  (∀ r, (r < GRID_ROWS - INITIAL_ROWS)%nat → grid st0 !! r = Some []) ∧
  (∀ r, (GRID_ROWS - INITIAL_ROWS ≤ r < GRID_ROWS)%nat →
        grid st0 !! r = Some (createRow (start r) r)) ∧
  length (concat (grid st0)) = (INITIAL_ROWS * GRID_COLS)%nat ∧
  (score st0 = 0 ∧ level st0 = 1 ∧ timeLeft st0 = TIME_LIMIT ∧
   selectedIds st0 = [] ∧ isPaused st0 = false ∧ gameState st0 = Playing ∧
   mode st0 = m ∧ highScore st0 = highScore st) ∧
  gameOverEffect st0 = st0 ∧
  (∀ ut' rnd', evaluateSelection ut' rnd' st0 = Some st0).
Proof.
  cbv zeta. split; [done|]. split.
  { intros r Hr. unfold GRID_ROWS, INITIAL_ROWS in Hr.
    do 6 (destruct r as [|r]; [done|]). lia. }
  split.
  { intros r Hr. unfold GRID_ROWS, INITIAL_ROWS in Hr.
    do 6 (destruct r as [|r]; [lia|]).
    do 4 (destruct r as [|r]; [done|]). lia. }
  split; [done|]. split; [done|]. split; [done|].
  intros ut' rnd'. unfold evaluateSelection. cbv zeta.
  rewrite decide_False by (apply not_matched_nil; done).
  by destruct (decide _).
Qed.

(** ** The sum effect *)

Lemma evaluateSelection_frame_facts (ut : Q) (rnd : RowDraw) (st st' : State) :
  evaluateSelection ut rnd st = Some st' →
  gameState st' = gameState st ∧ mode st' = mode st ∧
  isPaused st' = isPaused st ∧ highScore st' = highScore st ∧
  score st ≤ score st' ∧
  (level st' = level st ∨ level st' = level st + 1).
Proof.
  unfold evaluateSelection. cbv zeta. intros Heval.
  destruct (decide (_ ∧ _)) as [[_ Hpos]|_].
  - destruct (gravity _ _) as [g1|]; [|done]. rewrite bind_Some_l in Heval.
    destruct (match mode st with ModeClassic => _ | ModeTime => _ end);
      [|done].
    rewrite bind_Some_l in Heval. injection Heval as <-. simpl.
    repeat split; try done; [nia|].
    destruct (decide _); [by right|by left].
  - destruct (decide _); injection Heval as <-; simpl;
      repeat split; try done; try lia; by left.
Qed.

(** Whatever the selection, [evaluateSelection] leaves the phase, the
    mode, the pause flag and the high score alone, never lowers the score
    and raises the level by one at most. *)
Theorem evaluateSelection_frame (ut : Q) (rnd : RowDraw) (st st' : State) :
  evaluateSelection ut rnd st = Some st' →
  gameState st' = gameState st ∧ mode st' = mode st ∧
  isPaused st' = isPaused st ∧ highScore st' = highScore st ∧
  score st ≤ score st' ∧
  (level st' = level st ∨ level st' = level st + 1).
Proof. apply evaluateSelection_frame_facts. Qed.

Lemma evaluateSelection_frame_witness :
  ∃ st', evaluateSelection (1 # 2) exampleDraw
           (exampleStateAt ModeClassic ["a"; "g"] 10 600) = Some st' ∧
    gameState st' = Playing ∧ mode st' = ModeClassic ∧
    isPaused st' = false ∧ highScore st' = 0 ∧
    600 ≤ score st' ∧ (level st' = 1 ∨ level st' = 1 + 1).
Proof.
  eexists. split; [by vm_compute|].
  apply (evaluateSelection_frame (1 # 2) exampleDraw
           (exampleStateAt ModeClassic ["a"; "g"] 10 600)).
  by vm_compute.
Defined.

(** The sum effect settles in one pass: run again on its own result, with
    any draws, it changes nothing.  (After a match or an overflow the
    selection is empty, and an empty selection matches no target.) *)
Theorem evaluateSelection_settles (ut ut' : Q) (rnd rnd' : RowDraw)
    (st st' : State) :
  evaluateSelection ut rnd st = Some st' →
  evaluateSelection ut' rnd' st' = Some st'.
Proof.
  intros Heval.
  assert (∀ s, selectedIds s = [] → evaluateSelection ut' rnd' s = Some s)
    as Hnil.
  { intros s Hs. unfold evaluateSelection. cbv zeta.
    rewrite decide_False by by apply not_matched_nil.
    destruct (decide _); [|done]. destruct s. simpl in Hs. by subst. }
  apply evaluateSelection_cases in Heval
    as [[_ Hsel]|[[_ ->]|(Hnm & Hno & ->)]].
  - by apply Hnil.
  - by apply Hnil.
  - unfold evaluateSelection. cbv zeta.
    rewrite decide_False by exact Hnm. by rewrite decide_False by exact Hno.
Qed.

Lemma evaluateSelection_settles_witness :
  ∃ st', evaluateSelection (1 # 2) exampleDraw
           (exampleState ModeClassic ["a"; "g"] 10) = Some st' ∧
         evaluateSelection (1 # 4) exampleDraw st' = Some st'.
Proof.
  eexists. split; [by vm_compute|].
  apply (evaluateSelection_settles (1 # 2) (1 # 4) exampleDraw exampleDraw
           (exampleState ModeClassic ["a"; "g"] 10)).
  by vm_compute.
Defined.

(** ** Two clicks on one tile *)






(** Two clicks with the effect between them, on the example grid with
    target 12.  With [b] (5) selected, a click on [a] (3) gives the sum
    8: the effect does nothing and the second click on [a] restores the
    state.  With [h] (8) selected, a click on [g] (7) gives the sum 15:
    the effect clears the selection and the second click leaves [g]
    selected, not [h]. *)
Example two_clicks_with_effect :
  evaluateSelection (1 # 2) exampleDraw
    (toggleBlock (tile "a" 3 8 0) (exampleState ModeTime ["b"] 12))
  = Some (exampleState ModeTime ["b"; "a"] 12) ∧
  toggleBlock (tile "a" 3 8 0) (exampleState ModeTime ["b"; "a"] 12)
  = exampleState ModeTime ["b"] 12 ∧
  evaluateSelection (1 # 2) exampleDraw
    (toggleBlock (tile "g" 7 9 0) (exampleState ModeTime ["h"] 12))
  = Some (exampleState ModeTime [] 12) ∧
  toggleBlock (tile "g" 7 9 0) (exampleState ModeTime [] 12)
  = exampleState ModeTime ["g"] 12 ∧
  toggleBlock (tile "g" 7 9 0)
    (toggleBlock (tile "g" 7 9 0) (exampleState ModeTime ["h"] 12))
  = exampleState ModeTime ["h"] 12.
Proof. repeat split; vm_compute; reflexivity. Qed.

(** ** The counters along a game *)

Lemma timerTick_counters (rnd : RowDraw) (st st' : State) :
  timerTick rnd st = Some st' → countersOK st →
  countersOK st' ∧ highScore st' = highScore st.
Proof.
  unfold timerTick, countersOK, TIME_LIMIT. intros Htick H.
  destruct (timerRunning st); [|by injection Htick as <-].
  destruct (decide (timeLeft st <= 1)).
  - unfold addRow in Htick.
    destruct (addRowGrid rnd (grid st)) as [g'|]; [|done].
    injection Htick as <-.
    cbn [timeLeft score level highScore setTimeLeft setGrid].
    unfold TIME_LIMIT in *. split; [|done].
    lia.
  - injection Htick as <-.
    cbn [timeLeft score level highScore setTimeLeft setGrid].
    split; [lia|done].
Qed.

Lemma evaluateSelection_counters (ut : Q) (rnd : RowDraw) (st st' : State) :
  evaluateSelection ut rnd st = Some st' → countersOK st → countersOK st'.
Proof.
  intros Heval (Ht & Hs & Hl & Hh).
  destruct (evaluateSelection_frame_facts ut rnd st st' Heval)
    as (_ & _ & _ & Hhs & Hsc & Hlv).
  assert (timeLeft st' = timeLeft st ∨ timeLeft st' = TIME_LIMIT) as Htl.
  { unfold evaluateSelection in Heval. cbv zeta in Heval.
    destruct (decide (_ ∧ _)).
    - destruct (gravity _ _) as [g1|]; [|done]. rewrite bind_Some_l in Heval.
      destruct (match mode st with ModeClassic => _ | ModeTime => _ end);
        [|done].
      rewrite bind_Some_l in Heval. injection Heval as <-. by right.
    - destruct (decide _); injection Heval as <-; by left. }
  unfold countersOK, TIME_LIMIT in *. lia.
Qed.

Lemma step_counters (st st' : State) :
  step st st' → countersOK st →
  countersOK st' ∧ highScore st ≤ highScore st'.
Proof.
  intros Hstep Hok.
  destruct Hstep as [m start ut st _ _ _|b st _ _ _|st _|st _ _|st _
                    |rnd st st' _ _ Htick|st|ut rnd st st' _ _ Heval].
  - unfold countersOK, TIME_LIMIT in *.
    cbn [timeLeft score level highScore startGame]. unfold TIME_LIMIT. lia.
  - destruct (toggleBlock_changes b st) as [->|[_ [sel ->]]];
      (split; [done|simpl; lia]).
  - split; [done|simpl; lia].
  - split; [done|simpl; lia].
  - split; [done|simpl; lia].
  - destruct (timerTick_counters rnd st st' Htick Hok) as [? ->].
    split; [done|lia].
  - destruct (gameOverEffect_facts st) as (_ & _ & _ & Hs & Hl & Hh).
    split; [|done]. unfold countersOK in *. rewrite Hs, Hl.
    assert (timeLeft (gameOverEffect st) = timeLeft st) as ->.
    { unfold gameOverEffect. destruct (decide _); [|done].
      by destruct (topRowOccupied _). }
    lia.
  - split; [by eapply evaluateSelection_counters|].
    destruct (evaluateSelection_frame_facts ut rnd st st' Heval)
      as (_ & _ & _ & -> & _). lia.
Qed.

Lemma reachable_countersOK (st : State) : reachable st → countersOK st.
Proof.
  unfold reachable. intros Hreach.
  assert (countersOK initialState) as Hinit
    by (unfold countersOK, initialState, TIME_LIMIT;
        cbn [timeLeft score level highScore]; lia).
  revert Hinit. induction Hreach as [|s1 s2 s3 Hstep _ IH]; [done|].
  intros H1. by apply IH, (step_counters s1).
Qed.

(** In every reachable state the timer shows a value from 1 to 10 (it
    never shows 0: the tick that would reach 0 resets it), the score and
    the high score are not negative and the level is at least 1. *)
Theorem reachable_counters (st : State) : reachable st → countersOK st.
Proof. apply reachable_countersOK. Qed.

Lemma reachable_counters_witness : countersOK exampleToggled.
Proof.
  apply (reachable_counters exampleToggled).
  apply (rtc_l step initialState exampleStarted).
  - apply step_start.
    + left. reflexivity.
    + apply (bool_decide_unpack _). by vm_compute.
    + apply (bool_decide_unpack _). by vm_compute.
  - apply rtc_once. apply step_toggle.
    + discriminate.
    + reflexivity.
    + apply (bool_decide_unpack _). by vm_compute.
Defined.

(** From a reachable state on, whatever happens next (also a restart),
    the high score never decreases. *)
Theorem highScore_never_decreases (st st' : State) :
  reachable st → rtc step st st' → highScore st ≤ highScore st'.
Proof.
  intros Hreach%reachable_countersOK Hsteps.
  induction Hsteps as [|s1 s2 s3 Hstep _ IH]; [lia|].
  destruct (step_counters s1 s2 Hstep Hreach) as [H2 Hle].
  specialize (IH H2). lia.
Qed.

Lemma highScore_never_decreases_witness :
  highScore initialState ≤ highScore exampleToggled.
Proof.
  apply (highScore_never_decreases initialState exampleToggled).
  - apply rtc_refl.
  - apply (rtc_l step initialState exampleStarted).
    + apply step_start.
      * left. reflexivity.
      * apply (bool_decide_unpack _). by vm_compute.
      * apply (bool_decide_unpack _). by vm_compute.
    + apply rtc_once. apply step_toggle.
      * discriminate.
      * reflexivity.
      * apply (bool_decide_unpack _). by vm_compute.
Defined.

(** ** Gravity neither loses nor duplicates a tile *)

Lemma fmap_concat {A B : Type} (f : A → B) (ls : list (list A)) :
  f <$> concat ls = concat ((λ l : list A, f <$> l) <$> ls).
Proof.
  induction ls as [|l ls IH]; [done|].
  rewrite fmap_cons. cbn [concat]. by rewrite fmap_app, IH.
Qed.

Lemma concat_fmap_perm {A B : Type} (f g : A → list B) (xs : list A) :
  (∀ x, x ∈ xs → f x ≡ₚ g x) →
  concat (f <$> xs) ≡ₚ concat (g <$> xs).
Proof.
  induction xs as [|x xs IH]; intros Hfg; [done|].
  rewrite !fmap_cons. cbn [concat].
  rewrite (Hfg x) by by left. rewrite IH; [done|].
  intros y Hy. apply Hfg. by right.
Qed.

Lemma concat_fmap_app {A B : Type} (f g : A → list B) (xs : list A) :
  concat ((λ x, f x ++ g x) <$> xs) ≡ₚ concat (f <$> xs) ++ concat (g <$> xs).
Proof.
  induction xs as [|x xs IH]; [done|].
  rewrite !fmap_cons. cbn [concat]. rewrite IH.
  rewrite <- !app_assoc. f_equiv. rewrite !app_assoc. f_equiv.
  apply Permutation_app_comm.
Qed.

Lemma concat_option_list {A B : Type} (f : A → option B) (xs : list A) :
  concat ((λ x, option_list (f x)) <$> xs) = omap f xs.
Proof.
  induction xs as [|x xs IH]; [done|].
  rewrite fmap_cons. cbn [concat]. rewrite IH. csimpl. by destruct (f x).
Qed.

(** Reading a table of optional entries row by row or column by column
    gives the same entries. *)
Lemma omap_transpose {A B C : Type} (f : A → B → option C)
    (rs : list A) (cs : list B) :
  concat ((λ r, omap (f r) cs) <$> rs)
  ≡ₚ concat ((λ c, omap (λ r, f r c) rs) <$> cs).
Proof.
  induction rs as [|r rs IH].
  - simpl. induction cs as [|c cs IHc]; [done|]. by rewrite fmap_cons.
  - rewrite fmap_cons. cbn [concat]. rewrite IH.
    rewrite <- (concat_option_list (f r) cs), <- concat_fmap_app.
    apply concat_fmap_perm. intros c _. csimpl. by destruct (f r c).
Qed.

Lemma omap_lookup_seq {A : Type} (l : list A) (n : nat) :
  (length l ≤ n)%nat → omap (λ j, l !! j) (seq 0 n) = l.
Proof.
  revert n. induction l as [|x l IH]; intros n Hn.
  - by apply omap_all_None.
  - destruct n as [|n]; [simpl in Hn; lia|].
    change (seq 0 (S n)) with (0%nat :: seq 1 n). csimpl. f_equal.
    rewrite <- fmap_S_seq. etrans; [|apply (IH n); simpl in Hn; lia].
    apply list_omap_ext.
    apply Forall2_fmap_l, Forall_Forall2_diag, Forall_forall. done.
Qed.

Lemma seq_mirror (n : nat) :
  (λ r, n - 1 - r)%nat <$> seq 0 n ≡ₚ seq 0 n.
Proof.
  apply NoDup_Permutation; [|apply NoDup_seq|].
  - apply NoDup_fmap_2_strong; [|apply NoDup_seq].
    intros x y Hx%elem_of_seq Hy%elem_of_seq. lia.
  - intros j. rewrite list_elem_of_fmap. split.
    + intros (r & -> & Hr%elem_of_seq). apply elem_of_seq. lia.
    + intros Hj%elem_of_seq. exists (n - 1 - j)%nat. split; [lia|].
      apply elem_of_seq. lia.
Qed.

Lemma omap_lookup_mirror {A : Type} (l : list A) (n : nat) :
  (length l ≤ n)%nat → omap (λ r, l !! (n - 1 - r)%nat) (seq 0 n) ≡ₚ l.
Proof.
  intros Hn.
  assert (omap (λ r, l !! (n - 1 - r)%nat) (seq 0 n)
          = omap (λ j, l !! j) ((λ r, n - 1 - r)%nat <$> seq 0 n)) as ->.
  { apply list_omap_ext.
    apply Forall2_fmap_r, Forall_Forall2_diag, Forall_forall. done. }
  by rewrite seq_mirror, omap_lookup_seq.
Qed.

(** The columns of a list of blocks make up the list. *)
Lemma single_column (b : Block) (n : nat) :
  (col b < n)%nat →
  concat ((λ c, inColumn c [b]) <$> seq 0 n) = [b].
Proof.
  intros Hb. induction n as [|n IH]; [lia|].
  rewrite seq_S, fmap_app, concat_app. simpl.
  destruct (decide (col b = n)) as [Heq|Hne].
  - assert (concat ((λ c, inColumn c [b]) <$> seq 0 n) = []) as ->.
    { clear IH. apply concat_nil_Forall, Forall_fmap, Forall_forall.
      intros c Hc%elem_of_seq. unfold inColumn. simpl.
      rewrite filter_cons_False by lia. done. }
    unfold inColumn. by rewrite filter_cons_True.
  - rewrite IH by lia. unfold inColumn.
    by rewrite filter_cons_False.
Qed.

Lemma columns_partition (blocks : list Block) (n : nat) :
  Forall (λ b, (col b < n)%nat) blocks →
  concat ((λ c, inColumn c blocks) <$> seq 0 n) ≡ₚ blocks.
Proof.
  induction 1 as [|b blocks Hb _ IH]; simpl.
  - apply Permutation_refl'. apply concat_nil_Forall, Forall_fmap, Forall_forall.
    done.
  - assert (∀ c, inColumn c (b :: blocks) = inColumn c [b] ++ inColumn c blocks)
      as Hsplit by (intros c; unfold inColumn; by rewrite <- filter_app).
    assert ((λ c, inColumn c (b :: blocks)) <$> seq 0 n
            = (λ c, inColumn c [b] ++ inColumn c blocks) <$> seq 0 n) as ->.
    { apply list_fmap_ext. intros ? c _. apply Hsplit. }
    by rewrite concat_fmap_app, single_column, IH.
Qed.

Lemma settled_column_data (selected : list string) (g : Grid) (c : nat) :
  gridOK g →
  omap (λ r, tileData <$> settledCell selected g r c) (seq 0 GRID_ROWS)
  ≡ₚ tileData <$> inColumn c (keptBlocks selected g).
Proof.
  intros Hok.
  set (h := λ b : Block, (bid b, value b, c)).
  assert (omap (λ r, tileData <$> settledCell selected g r c) (seq 0 GRID_ROWS)
          = omap (λ r, (h <$> keptColumn selected g c) !! (GRID_ROWS - 1 - r)%nat)
                 (seq 0 GRID_ROWS)) as ->.
  { apply list_omap_ext, Forall_Forall2_diag, Forall_forall. intros r _.
    unfold settledCell. rewrite list_lookup_fmap.
    by destruct (keptColumn selected g c !! _). }
  rewrite omap_lookup_mirror.
  - unfold keptColumn. rewrite sortByRowDesc_perm.
    apply Permutation_refl'. apply Forall_fmap_ext, Forall_forall.
    intros b [Hb _]%list_elem_of_filter. unfold h, tileData. by rewrite Hb.
  - rewrite length_fmap. unfold keptColumn. rewrite sortByRowDesc_length.
    by destruct (gridOK_fitsGrid selected g Hok) as [_ Hfit].
Qed.

Lemma gravity_tileData (selected : list string) (g : Grid) :
  gridOK g →
  ∃ g', gravity selected g = Some g' ∧
    tileData <$> concat g'
    ≡ₚ tileData <$> filter (λ b, bid b ∉ selected) (concat g).
Proof.
  intros Hok. exists (settledGrid selected g).
  split; [by apply gravity_spec, gridOK_fitsGrid|].
  rewrite <- keptBlocks_filter.
  rewrite fmap_concat. unfold settledGrid. rewrite <- list_fmap_compose.
  assert ((λ l : list Block, tileData <$> l)
            ∘ (λ r, omap (settledCell selected g r) (seq 0 GRID_COLS))
          <$> seq 0 GRID_ROWS
          = (λ r, omap (λ c, tileData <$> settledCell selected g r c)
                       (seq 0 GRID_COLS)) <$> seq 0 GRID_ROWS) as ->.
  { apply list_fmap_ext. intros ? r _. unfold compose. apply list_fmap_omap. }
  rewrite (omap_transpose (λ r c, tileData <$> settledCell selected g r c)).
  rewrite (concat_fmap_perm _
             (λ c, tileData <$> inColumn c (keptBlocks selected g)))
    by (intros c _; by apply settled_column_data).
  assert (concat ((λ c, tileData <$> inColumn c (keptBlocks selected g))
                    <$> seq 0 GRID_COLS)
          = tileData <$> concat ((λ c, inColumn c (keptBlocks selected g))
                                   <$> seq 0 GRID_COLS)) as ->.
  { by rewrite fmap_concat, <- list_fmap_compose. }
  rewrite columns_partition; [done|].
  by destruct (gridOK_fitsGrid selected g Hok).
Qed.

(** Removal and gravity keep every tile that is not selected exactly
    once, with its id, its value and its column: what the grid holds
    afterwards is, apart from the rows, what it held of unselected tiles.
    In particular their number and the sum of their values are kept. *)
Theorem gravity_conserves_tiles (selected : list string) (g : Grid) :
  gridOK g →
  ∃ g', gravity selected g = Some g' ∧
    tileData <$> concat g'
    ≡ₚ tileData <$> filter (λ b, bid b ∉ selected) (concat g).
Proof. apply gravity_tileData. Qed.

Lemma gravity_conserves_tiles_witness :
  ∃ g', gravity ["g"; "h"] exampleGrid = Some g' ∧
    tileData <$> concat g'
    ≡ₚ tileData <$> filter (λ b, bid b ∉ ["g"; "h"]) (concat exampleGrid).
Proof.
  apply (gravity_conserves_tiles ["g"; "h"] exampleGrid).
  apply (bool_decide_unpack _). by vm_compute.
Defined.

(** ** Row insertion, tile by tile *)

Lemma addRowGrid_tileData (rnd : RowDraw) (g : Grid) :
  length g = GRID_ROWS →
  ∃ g', addRowGrid rnd g = Some g' ∧
    tileData <$> concat g'
    = (tileData <$> concat (drop 1 g))
      ++ (tileData <$> createRow rnd (GRID_ROWS - 1)) ∧
    (length (concat g') + length (concat (take 1 g))
     = length (concat g) + GRID_COLS)%nat.
Proof.
  intros Hlen. unfold GRID_ROWS in Hlen.
  destruct g as [|r0 [|r1 [|r2 [|r3 [|r4 [|r5 [|r6 [|r7 [|r8 [|r9 [|? ?]]]]]]]]]]];
    try done.
  exists [shiftRowTo 0 r1; shiftRowTo 1 r2; shiftRowTo 2 r3; shiftRowTo 3 r4;
          shiftRowTo 4 r5; shiftRowTo 5 r6; shiftRowTo 6 r7; shiftRowTo 7 r8;
          shiftRowTo 8 r9; createRow rnd 9].
  split; [reflexivity|]. split.
  - cbn [concat drop]. rewrite !fmap_app. unfold shiftRowTo.
    rewrite <- !list_fmap_compose. rewrite !app_nil_r.
    rewrite <- !app_assoc. reflexivity.
  - cbn [concat take]. unfold shiftRowTo, createRow, GRID_COLS.
    rewrite !length_app, !length_fmap, length_seq. cbn [length]. lia.
Qed.

(** [addRow] keeps the tiles of the rows below the top, in their order
    and with their ids, values and columns, and appends the fresh row:
    the grid loses the tiles of the old top row and gains [GRID_COLS]. *)
Theorem addRow_keeps_lower_rows (rnd : RowDraw) (g : Grid) :
  length g = GRID_ROWS →
  ∃ g', addRowGrid rnd g = Some g' ∧
    tileData <$> concat g'
    = (tileData <$> concat (drop 1 g))
      ++ (tileData <$> createRow rnd (GRID_ROWS - 1)) ∧
    (length (concat g') + length (concat (take 1 g))
     = length (concat g) + GRID_COLS)%nat.
Proof. apply addRowGrid_tileData. Qed.

Lemma addRow_keeps_lower_rows_witness :
  ∃ g', addRowGrid exampleDraw exampleGrid = Some g' ∧
    tileData <$> concat g'
    = (tileData <$> concat (drop 1 exampleGrid))
      ++ (tileData <$> createRow exampleDraw (GRID_ROWS - 1)) ∧
    (length (concat g') + length (concat (take 1 exampleGrid))
     = length (concat exampleGrid) + GRID_COLS)%nat.
Proof.
  apply (addRow_keeps_lower_rows exampleDraw exampleGrid). reflexivity.
Defined.

(** ** The sum of the selection *)

Lemma currentSum_total (g : Grid) (selected : list string) :
  currentSum g selected = selectedTotal selected (tileData <$> concat g).
Proof.
  unfold currentSum.
  assert (∀ l acc,
            foldl (λ sum block,
                     if decide (bid block ∈ selected)
                     then sum + value block else sum) acc l
            = acc + selectedTotal selected (tileData <$> l)) as H.
  { induction l as [|b l IH]; intros acc; [simpl; lia|].
    cbn [foldl]. rewrite IH. rewrite fmap_cons. cbn [selectedTotal foldr].
    fold (selectedTotal selected (tileData <$> l)). simpl.
    destruct (decide (bid b ∈ selected)); lia. }
  rewrite H. lia.
Qed.

Lemma selectedTotal_app (selected : list string)
    (ds1 ds2 : list (string * Z * nat)) :
  selectedTotal selected (ds1 ++ ds2)
  = selectedTotal selected ds1 + selectedTotal selected ds2.
Proof.
  unfold selectedTotal. induction ds1 as [|d ds1 IH]; [simpl; lia|].
  cbn [app foldr]. rewrite IH. lia.
Qed.

Lemma selectedTotal_unselected (selected : list string)
    (ds : list (string * Z * nat)) :
  Forall (λ d, d.1.1 ∉ selected) ds → selectedTotal selected ds = 0.
Proof.
  unfold selectedTotal. induction 1 as [|d ds Hd _ IH]; [done|].
  cbn [foldr]. rewrite IH. by rewrite decide_False.
Qed.

Lemma selectedTotal_snoc (selected : list string) (i : string)
    (ds : list (string * Z * nat)) :
  i ∉ selected →
  selectedTotal (selected ++ [i]) ds = selectedTotal selected ds + idTotal i ds.
Proof.
  intros Hi. unfold selectedTotal, idTotal.
  induction ds as [|d ds IH]; [done|]. cbn [foldr]. rewrite IH.
  destruct (decide (d.1.1 = i)) as [Heq|Hne].
  - rewrite decide_True by (apply elem_of_app; right; rewrite Heq; by left).
    rewrite decide_False by by rewrite Heq. lia.
  - destruct (decide (d.1.1 ∈ selected)) as [Hin|Hout].
    + rewrite decide_True by (apply elem_of_app; by left). lia.
    + rewrite decide_False; [lia|].
      intros [?|?%list_elem_of_singleton]%elem_of_app; done.
Qed.

Lemma selectedTotal_remove (selected : list string) (i : string)
    (ds : list (string * Z * nat)) :
  i ∈ selected →
  selectedTotal (filter (λ j, j ≠ i) selected) ds
  = selectedTotal selected ds - idTotal i ds.
Proof.
  intros Hi. unfold selectedTotal, idTotal.
  induction ds as [|d ds IH]; [done|]. cbn [foldr]. rewrite IH.
  destruct (decide (d.1.1 = i)) as [Heq|Hne].
  - rewrite decide_False
      by (intros [Hne _]%list_elem_of_filter; by apply Hne).
    rewrite decide_True by by rewrite Heq. lia.
  - destruct (decide (d.1.1 ∈ selected)) as [Hin|Hout].
    + rewrite decide_True by by apply list_elem_of_filter. lia.
    + rewrite decide_False; [lia|].
      by intros [_ ?]%list_elem_of_filter.
Qed.

Lemma idTotal_unique (b : Block) (blocks : list Block) :
  NoDup (bid <$> blocks) → b ∈ blocks →
  idTotal (bid b) (tileData <$> blocks) = value b.
Proof.
  unfold idTotal. induction blocks as [|x blocks IH]; intros Hnd Hb.
  - by apply elem_of_nil in Hb.
  - rewrite fmap_cons in Hnd. apply NoDup_cons in Hnd as [Hx Hnd].
    rewrite fmap_cons. cbn [foldr]. simpl.
    apply elem_of_cons in Hb as [->|Hb].
    + rewrite decide_True by done.
      assert (foldr (λ d acc, (if decide (d.1.1 = bid x) then d.1.2 else 0) + acc)
                    0 (tileData <$> blocks) = 0) as ->; [|lia].
      clear IH Hnd. induction blocks as [|y blocks IH]; [done|].
      rewrite fmap_cons in Hx. apply not_elem_of_cons in Hx as [Hne Hx].
      rewrite fmap_cons. cbn [foldr]. simpl.
      rewrite decide_False by done. rewrite IH by done. lia.
    + rewrite decide_False.
      * rewrite IH by done. lia.
      * intros Heq. apply Hx. rewrite Heq.
        apply list_elem_of_fmap. by exists b.
Qed.

(** With unique ids, a click on a tile of a running game changes the sum
    of the selection by the value of that tile: up if the tile was not
    selected, down if it was. *)
Theorem toggleBlock_changes_sum (b : Block) (st : State) :
  gameState st = Playing → isPaused st = false →
  NoDup (ids (grid st)) → b ∈ concat (grid st) →
  currentSum (grid st) (selectedIds (toggleBlock b st))
  = if decide (bid b ∈ selectedIds st)
    then currentSum (grid st) (selectedIds st) - value b
    else currentSum (grid st) (selectedIds st) + value b.
Proof.
  intros Hplay Hpause Hnd Hb. unfold toggleBlock.
  rewrite decide_False by (intros H; by apply H). rewrite Hpause.
  cbn [selectedIds setSelectedIds]. rewrite !currentSum_total.
  destruct (decide (bid b ∈ selectedIds st)) as [Hin|Hout].
  - rewrite selectedTotal_remove by done. by rewrite idTotal_unique.
  - rewrite selectedTotal_snoc by done. by rewrite idTotal_unique.
Qed.

Lemma toggleBlock_changes_sum_witness :
  currentSum exampleGrid
    (selectedIds (toggleBlock (tile "g" 7 9 0)
                    (exampleState ModeTime ["a"] 12)))
  = if decide (bid (tile "g" 7 9 0) ∈ ["a"])
    then currentSum exampleGrid ["a"] - 7
    else currentSum exampleGrid ["a"] + 7.
Proof.
  apply (toggleBlock_changes_sum (tile "g" 7 9 0)
           (exampleState ModeTime ["a"] 12)).
  - reflexivity.
  - reflexivity.
  - apply (bool_decide_unpack _). by vm_compute.
  - apply (bool_decide_unpack _). by vm_compute.
Defined.

(** A row insertion into a grid whose top row is free leaves the sum of
    the selection as it is, as long as the fresh ids are not selected: a
    tick of the timer neither completes nor spoils a selection. *)
Theorem addRow_keeps_sum (rnd : RowDraw) (st : State) :
  length (grid st) = GRID_ROWS → topRowOccupied (grid st) = false →
  Forall (λ j, j ∉ selectedIds st) (freshIds rnd) →
  ∃ st', addRow rnd st = Some st' ∧
    selectedIds st' = selectedIds st ∧ target st' = target st ∧
    currentSum (grid st') (selectedIds st')
    = currentSum (grid st) (selectedIds st).
Proof.
  intros Hlen Htop Hfresh.
  destruct (addRowGrid_tileData rnd (grid st) Hlen) as (g' & Hg' & Hdata & _).
  unfold addRow. rewrite Hg', bind_Some_l. eexists. split; [done|].
  cbn [selectedIds target grid setTimeLeft setGrid].
  split; [done|]. split; [done|].
  rewrite !currentSum_total, Hdata, selectedTotal_app.
  rewrite (selectedTotal_unselected _ (tileData <$> createRow rnd _)).
  - destruct (grid st) as [|row0 rest]; [done|].
    destruct row0; [|done]. cbn [drop concat app]. rewrite ?drop_0. lia.
  - apply Forall_fmap, Forall_forall. intros b Hb. simpl.
    rewrite Forall_forall in Hfresh. apply Hfresh.
    rewrite <- (createRow_ids rnd (GRID_ROWS - 1)).
    apply list_elem_of_fmap. by exists b.
Qed.

Lemma addRow_keeps_sum_witness :
  ∃ st', addRow exampleDraw (exampleState ModeTime ["a"; "h"] 20) = Some st' ∧
    selectedIds st' = ["a"; "h"] ∧ target st' = 20 ∧
    currentSum (grid st') (selectedIds st') = currentSum exampleGrid ["a"; "h"].
Proof.
  apply (addRow_keeps_sum exampleDraw (exampleState ModeTime ["a"; "h"] 20)).
  - reflexivity.
  - reflexivity.
  - apply (bool_decide_unpack _). by vm_compute.
Defined.

(** ** A match and the top row *)

Lemma settledGrid_top_free (selected : list string) (g : Grid) :
  gridOK g → topRowOccupied g = false →
  settledGrid selected g !! 0%nat = Some [].
Proof.
  intros Hok Htop. apply settledGrid_lookup.
  split; [unfold GRID_ROWS; lia|]. symmetry.
  apply omap_all_None. intros c. unfold settledCell.
  rewrite lookup_ge_None_2; [done|].
  pose proof (keptColumn_below_top selected g c Hok Htop).
  unfold GRID_ROWS in *. lia.
Qed.

(** In time mode a match never ends the game: with the top row free
    before, it is free afterwards and the game-over effect has nothing to
    do.  The grid then holds the unselected tiles and nothing else; in
    classic mode it holds [GRID_COLS] tiles more. *)
Theorem match_tile_count (ut : Q) (rnd : RowDraw) (st : State) :
  gridOK (grid st) → topRowOccupied (grid st) = false → matched st →
  ∃ st', evaluateSelection ut rnd st = Some st' ∧
    (mode st = ModeTime →
     topRowOccupied (grid st') = false ∧ gameOverEffect st' = st') ∧
    length (concat (grid st'))
    = (length (filter (λ b, bid b ∉ selectedIds st) (concat (grid st)))
       + match mode st with ModeClassic => GRID_COLS | ModeTime => 0 end)%nat.
Proof.
  intros Hok Htop Hm.
  destruct (evaluateSelection_match ut rnd st Hm Hok) as (g' & Hg' & ->).
  eexists. split; [done|].
  cbn [grid]. unfold gridAfterMatch in Hg'.
  pose proof (settledGrid_top_free (selectedIds st) (grid st) Hok Htop) as Hfree.
  destruct (gravity_tileData (selectedIds st) (grid st) Hok)
    as (g1 & Hg1 & Hperm).
  rewrite gravity_spec in Hg1 by by apply gridOK_fitsGrid.
  injection Hg1 as <-.
  apply Permutation_length in Hperm. rewrite !length_fmap in Hperm.
  destruct (mode st) eqn:Hmode.
  - split; [done|].
    destruct (addRowGrid_tileData rnd
                (settledGrid (selectedIds st) (grid st)))
      as (g2 & Hg2 & _ & Hcount); [apply settledGrid_length|].
    rewrite Hg' in Hg2. injection Hg2 as <-.
    destruct (settledGrid (selectedIds st) (grid st)) as [|row0 rest];
      [done|].
    injection Hfree as ->. cbn [take concat app length] in Hcount.
    cbn [concat app] in Hperm. rewrite take_0 in Hcount.
    cbn [concat length] in Hcount. lia.
  - injection Hg' as <-. split; [|lia]. intros _.
    assert (topRowOccupied (settledGrid (selectedIds st) (grid st)) = false)
      as Hno.
    { destruct (settledGrid (selectedIds st) (grid st)) as [|row0 rest];
        [done|]. by injection Hfree as ->. }
    split; [done|]. unfold gameOverEffect. cbn [gameState grid].
    destruct (decide _); [|done]. by rewrite Hno.
Qed.

Lemma match_tile_count_witness :
  ∃ st', evaluateSelection (1 # 2) exampleDraw
           (exampleState ModeTime ["a"; "g"] 10) = Some st' ∧
    (ModeTime = ModeTime →
     topRowOccupied (grid st') = false ∧ gameOverEffect st' = st') ∧
    length (concat (grid st'))
    = (length (filter (λ b, bid b ∉ ["a"; "g"]) (concat exampleGrid)) + 0)%nat.
Proof.
  apply (match_tile_count (1 # 2) exampleDraw
           (exampleState ModeTime ["a"; "g"] 10)).
  - apply (bool_decide_unpack _). by vm_compute.
  - reflexivity.
  - split; reflexivity.
Defined.

(** ** How long a game lasts without a match *)

(** The grid of a new game takes five row insertions without a tile
    reaching the top row; the sixth insertion fills the top row, which
    ends the game. *)
Theorem fresh_grid_survives_five_rows (start : nat → RowDraw)
    (rnds : list RowDraw) :
  length rnds = 6%nat →
  (∃ g5, addRows (take 5 rnds) (initialGrid start) = Some g5 ∧
         topRowOccupied g5 = false) ∧
  (∃ g6, addRows rnds (initialGrid start) = Some g6 ∧
         topRowOccupied g6 = true).
Proof.
  intros Hlen.
  destruct rnds as [|d1 [|d2 [|d3 [|d4 [|d5 [|d6 [|? ?]]]]]]]; try done.
  split; eexists; (split; [reflexivity|reflexivity]).
Qed.

Lemma fresh_grid_survives_five_rows_witness :
  (∃ g5, addRows (take 5 (replicate 6 exampleDraw)) (initialGrid exampleStart)
         = Some g5 ∧ topRowOccupied g5 = false) ∧
  (∃ g6, addRows (replicate 6 exampleDraw) (initialGrid exampleStart)
         = Some g6 ∧ topRowOccupied g6 = true).
Proof.
  apply (fresh_grid_survives_five_rows exampleStart (replicate 6 exampleDraw)).
  reflexivity.
Defined.

(** ** Unique ids *)

Lemma ids_tileData (g : Grid) : ids g = (λ d, d.1.1) <$> (tileData <$> concat g).
Proof. unfold ids. by rewrite <- list_fmap_compose. Qed.

Lemma addRowGrid_ids_unique (rnd : RowDraw) (g g' : Grid) :
  length g = GRID_ROWS → NoDup (ids g) → NoDup (freshIds rnd) →
  Forall (λ j, j ∉ ids g) (freshIds rnd) →
  addRowGrid rnd g = Some g' → NoDup (ids g').
Proof.
  intros Hlen Hnd Hfresh Hnew Hg'.
  destruct (addRowGrid_tileData rnd g Hlen) as (g2 & Hg2 & Hdata & _).
  rewrite Hg' in Hg2. injection Hg2 as <-.
  rewrite ids_tileData, Hdata, fmap_app, <- !list_fmap_compose.
  change ((λ d : string * Z * nat, d.1.1) ∘ tileData) with bid.
  rewrite createRow_ids.
  assert (concat (drop 1 g) `sublist_of` concat g) as Hsub.
  { destruct g as [|row0 rest]; [done|]. cbn [drop concat].
    rewrite drop_0. by apply sublist_inserts_l. }
  apply NoDup_app. split; [|split; [|done]].
  - eapply sublist_NoDup; [exact Hnd|]. by apply fmap_sublist.
  - intros i Hi Hf. rewrite Forall_forall in Hnew. apply (Hnew i Hf).
    unfold ids. apply list_elem_of_fmap in Hi as (b & -> & Hb).
    apply list_elem_of_fmap. exists b. split; [done|].
    by eapply elem_of_sublist.
Qed.

Lemma settledGrid_ids (selected : list string) (g : Grid) :
  gridOK g →
  ids (settledGrid selected g)
  ≡ₚ bid <$> filter (λ b, bid b ∉ selected) (concat g).
Proof.
  intros Hok.
  destruct (gravity_tileData selected g Hok) as (g1 & Hg1 & Hperm).
  rewrite gravity_spec in Hg1 by by apply gridOK_fitsGrid.
  injection Hg1 as <-.
  rewrite ids_tileData, Hperm, <- list_fmap_compose. done.
Qed.

(** Ids stay unique: if the tiles of the grid have different ids and the
    generated ids are new and different, the tiles have different ids
    after a row insertion and after a match. *)
Theorem operations_keep_ids_unique (ut : Q) (rnd : RowDraw) (st : State) :
  gridOK (grid st) → NoDup (ids (grid st)) → NoDup (freshIds rnd) →
  Forall (λ j, j ∉ ids (grid st)) (freshIds rnd) →
  (∃ st', addRow rnd st = Some st' ∧ NoDup (ids (grid st'))) ∧
  (matched st →
   ∃ st', evaluateSelection ut rnd st = Some st' ∧ NoDup (ids (grid st'))).
Proof.
  intros Hok Hnd Hfresh Hnew.
  pose proof Hok as [Hlen _]%gridOK_lookup. split.
  - destruct (addRowGrid_spec rnd (grid st)) as (g' & Hg' & _); [lia|].
    unfold addRow. rewrite Hg', bind_Some_l. eexists. split; [done|].
    cbn [grid setTimeLeft setGrid]. by eapply addRowGrid_ids_unique.
  - intros Hm.
    destruct (evaluateSelection_match ut rnd st Hm Hok) as (g' & Hg' & ->).
    eexists. split; [done|]. cbn [grid].
    pose proof (settledGrid_ids (selectedIds st) (grid st) Hok) as Hids.
    assert (NoDup (ids (settledGrid (selectedIds st) (grid st)))) as Hnd1.
    { rewrite Hids. eapply sublist_NoDup; [exact Hnd|].
      apply fmap_sublist, sublist_filter. }
    unfold gridAfterMatch in Hg'. destruct (mode st).
    + eapply addRowGrid_ids_unique; [apply settledGrid_length|exact Hnd1
                                     |exact Hfresh| |exact Hg'].
      eapply Forall_impl; [exact Hnew|]. intros j Hj Hin. apply Hj.
      rewrite Hids in Hin. apply list_elem_of_fmap in Hin as (b & -> & Hb).
      apply list_elem_of_filter in Hb as [_ Hb].
      apply list_elem_of_fmap. by exists b.
    + by injection Hg' as <-.
Qed.

Lemma operations_keep_ids_unique_witness :
  (∃ st', addRow exampleDraw (exampleState ModeClassic ["a"; "g"] 10) = Some st'
          ∧ NoDup (ids (grid st'))) ∧
  (matched (exampleState ModeClassic ["a"; "g"] 10) →
   ∃ st', evaluateSelection (1 # 2) exampleDraw
            (exampleState ModeClassic ["a"; "g"] 10) = Some st' ∧
          NoDup (ids (grid st'))).
Proof.
  apply (operations_keep_ids_unique (1 # 2) exampleDraw
           (exampleState ModeClassic ["a"; "g"] 10)).
  - apply (bool_decide_unpack _). by vm_compute.
  - apply (bool_decide_unpack _). by vm_compute.
  - apply (bool_decide_unpack _). by vm_compute.
  - apply (bool_decide_unpack _). by vm_compute.
Defined.

(** ** The award of a match *)

(** A match pays at least the target: the selection of a match is not
    empty, so the score grows by the target or a multiple of it. *)
Theorem match_raises_score (ut : Q) (rnd : RowDraw) (st st' : State) :
  matched st → evaluateSelection ut rnd st = Some st' →
  selectedIds st ≠ [] ∧
  score st' = score st + target st * Z.of_nat (length (selectedIds st)) ∧
  score st + target st ≤ score st'.
Proof.
  intros Hm Heval.
  assert (selectedIds st ≠ []) as Hne
    by (intros Hnil; by apply (not_matched_nil st Hnil)).
  split; [done|]. unfold evaluateSelection in Heval. cbv zeta in Heval.
  rewrite decide_True in Heval by exact Hm.
  destruct (gravity _ _) as [g1|]; [|done]. rewrite bind_Some_l in Heval.
  destruct (match mode st with ModeClassic => _ | ModeTime => _ end); [|done].
  rewrite bind_Some_l in Heval. injection Heval as <-. cbn [score].
  split; [done|]. destruct Hm as [_ Hpos].
  destruct (selectedIds st) as [|i sel]; [done|]. cbn [length]. nia.
Qed.

Lemma match_raises_score_witness :
  ∃ st', evaluateSelection (1 # 2) exampleDraw
           (exampleState ModeTime ["a"; "g"] 10) = Some st' ∧
    ["a"; "g"] ≠ [] ∧
    score st' = 0 + 10 * Z.of_nat (length ["a"; "g"]) ∧
    0 + 10 ≤ score st'.
Proof.
  eexists. split; [by vm_compute|].
  apply (match_raises_score (1 # 2) exampleDraw
           (exampleState ModeTime ["a"; "g"] 10)).
  - split; reflexivity.
  - by vm_compute.
Defined.
